(** * volumepan: the fetch / paginate / aggregate engine of [node.js]

    A shallow embedding of the three engine functions of [src/node.js]
    ([fetchAll], [fetchWithFallbacks], [aggregate]) together with the
    properties the specification states about them.

    Modelling conventions.
    - JavaScript strings are [string]s of ASCII characters; [toLowerCase]
      maps the letters A..Z to a..z and leaves every other character alone.
    - USD amounts are exact rationals ([Qc]); the IEEE rounding of the
      JavaScript additions is outside the model.
    - Counters are natural numbers.
    - The object [per] is used by the source as a dictionary keyed by
      address and is a [gmap string _] here.  Addresses are the hexadecimal
      [Bytes] values of the subgraph schema, so no key collides with a
      member inherited from [Object.prototype].
    - A JavaScript [Map] or [Set] iterates in insertion order: both are
      lists here, a [Map] as an association list with distinct keys. *)

From Stdlib Require Import Ascii String QArith Qcanon.
From stdpp Require Import gmap strings pretty list fin_maps numbers sorting.

Local Open Scope string_scope.
Local Open Scope list_scope.

(** ** Strings *)

Definition is_upper (c : ascii) : bool :=
  (65 <=? nat_of_ascii c)%nat && (nat_of_ascii c <=? 90)%nat.

Definition lower_ascii (c : ascii) : ascii :=
  if is_upper c then ascii_of_nat (nat_of_ascii c + 32) else c.

(** [String.prototype.toLowerCase] *)
Fixpoint toLowerCase (s : string) : string :=
  match s with
  | EmptyString => EmptyString
  | String c rest => String (lower_ascii c) (toLowerCase rest)
  end.

Fixpoint has_upper (s : string) : bool :=
  match s with
  | EmptyString => false
  | String c rest => is_upper c || has_upper rest
  end.

(** [x || d] for a possibly missing string: [undefined], [null] and the
    empty string are all falsy. *)
Definition str_or (x : option string) (d : string) : string :=
  match x with
  | Some s => if decide (s = "") then d else s
  | None => d
  end.

(** ** Swap records (the rows of the three GraphQL queries) *)

Record Token := mkToken {
  symbol : option string;
  token_address : option string
}.

Record Pool := mkPool {
  feeTier : option string;
  token0 : option Token;
  token1 : option Token
}.

(** The [amountUSD] field as [Number(s.amountUSD || 0) || 0] sees it:
    missing, present but not a number ([NaN]), or a number. *)
Inductive Amount :=
  | AmountAbsent
  | AmountNaN
  | AmountNum (q : Qc).

Record SwapRecord := mkSwap {
  swap_id : string;
  timestamp : Z;
  amountUSD : Amount;
  origin : option string;
  sender : option string;
  recipient : option string;
  pool : option Pool
}.

Global Instance Token_eq_dec : EqDecision Token.
Proof. solve_decision. Defined.
Global Instance Pool_eq_dec : EqDecision Pool.
Proof. solve_decision. Defined.
Global Instance Amount_eq_dec : EqDecision Amount.
Proof. solve_decision. Defined.
Global Instance SwapRecord_eq_dec : EqDecision SwapRecord.
Proof. solve_decision. Defined.

(** ** Insertion-ordered sets and maps *)

(** [Set.prototype.add] *)
Definition Set_add `{EqDecision A} (x : A) (s : list A) : list A :=
  if decide (x ∈ s) then s else s ++ [x].

(** [new Set(xs)] *)
Definition Set_of `{EqDecision A} (xs : list A) : list A :=
  fold_left (λ s x, Set_add x s) xs [].

(** [Map.prototype.get] on a string-keyed map *)
Fixpoint Map_get {V} (m : list (string * V)) (k : string) : option V :=
  match m with
  | [] => None
  | (k', v) :: rest => if decide (k' = k) then Some v else Map_get rest k
  end.

(** [Map.prototype.set]: an existing key keeps its position. *)
Fixpoint Map_set {V} (m : list (string * V)) (k : string) (v : V)
  : list (string * V) :=
  match m with
  | [] => [(k, v)]
  | (k', v') :: rest =>
      if decide (k' = k) then (k, v) :: rest else (k', v') :: Map_set rest k v
  end.

(** ** Merging the three lists by identifier (node.js 159-170) *)

Inductive Tag := TagOrigin | TagSender | TagRecipient.

Global Instance Tag_eq_dec : EqDecision Tag.
Proof. solve_decision. Defined.

(** A value of [idxById]: the first record seen under the identifier
    and the set of lists it was seen in. *)
Record Indexed := mkIndexed {
  rec : SwapRecord;
  _tags : list Tag
}.

Definition idx_has (idx : list Indexed) (i : string) : bool :=
  bool_decide (i ∈ map (λ e, swap_id (rec e)) idx).

(** [idxById.get(i)._tags.add(tag)] *)
Fixpoint idx_tag (idx : list Indexed) (i : string) (tag : Tag)
  : list Indexed :=
  match idx with
  | [] => []
  | e :: rest =>
      if decide (swap_id (rec e) = i)
      then mkIndexed (rec e) (Set_add tag (_tags e)) :: rest
      else e :: idx_tag rest i tag
  end.

Definition addSet_step (tag : Tag) (idx : list Indexed) (s : SwapRecord)
  : list Indexed :=
  if idx_has idx (swap_id s)
  then idx_tag idx (swap_id s) tag
  else idx ++ [mkIndexed s [tag]].

Definition addSet (rows : list SwapRecord) (tag : Tag) (idx : list Indexed)
  : list Indexed :=
  fold_left (addSet_step tag) rows idx.

Definition idxById (swapsOrigin swapsSender swapsRecipient : list SwapRecord)
  : list Indexed :=
  addSet swapsRecipient TagRecipient
    (addSet swapsSender TagSender
       (addSet swapsOrigin TagOrigin [])).

(** [const all = [...idxById.values()]] *)
Definition merged (swapsOrigin swapsSender swapsRecipient : list SwapRecord)
  : list SwapRecord :=
  map rec (idxById swapsOrigin swapsSender swapsRecipient).

(** ** Per-address metrics (node.js 173-207) *)

Record Metrics (T : Type) := mkMetrics {
  address : string;
  swaps_execution : nat;
  volume_execution_usd : Qc;
  swaps_involved : nat;
  volume_involved_usd : Qc;
  top_pairs : T
}.
Arguments mkMetrics {T}.
Arguments address {T}.
Arguments swaps_execution {T}.
Arguments volume_execution_usd {T}.
Arguments swaps_involved {T}.
Arguments volume_involved_usd {T}.
Arguments top_pairs {T}.

(** While the records are scanned [top_pairs] is a [Map] from pair key
    to USD; the finalisation replaces it by an array of strings. *)
Notation PairMap := (list (string * Qc)) (only parsing).
Notation Acc := (Metrics PairMap) (only parsing).
Notation WalletMetrics := (Metrics (list string)) (only parsing).

Definition zero_metrics (a : string) : Acc :=
  mkMetrics a 0 0%Qc 0 0%Qc [].

Definition init_per (addresses : list string) : gmap string Acc :=
  fold_left (λ per a, <[a := zero_metrics a]> per) addresses ∅.

(** [Number(s.amountUSD || 0) || 0] *)
Definition usd_of (s : SwapRecord) : Qc :=
  match amountUSD s with
  | AmountNum q => q
  | AmountAbsent | AmountNaN => 0%Qc
  end.

(** [s.pool?.token0?.symbol] and its sibling *)
Definition symbol0 (s : SwapRecord) : option string :=
  p ← pool s; t ← token0 p; symbol t.
Definition symbol1 (s : SwapRecord) : option string :=
  p ← pool s; t ← token1 p; symbol t.

Definition pair_of (s : SwapRecord) : string :=
  str_or (symbol0 s) "T0" +:+ "/" +:+ str_or (symbol1 s) "T1".

(** [(x || '').toLowerCase()] *)
Definition lower_addr (x : option string) : string :=
  toLowerCase (str_or x "").

Definition bump_execution (pair : string) (usd : Qc) (m : Acc) : Acc :=
  mkMetrics (address m)
    (swaps_execution m + 1)
    (volume_execution_usd m + usd)%Qc
    (swaps_involved m)
    (volume_involved_usd m)
    (Map_set (top_pairs m) pair
       (default 0%Qc (Map_get (top_pairs m) pair) + usd)%Qc).

Definition bump_involved (usd : Qc) (m : Acc) : Acc :=
  mkMetrics (address m)
    (swaps_execution m)
    (volume_execution_usd m)
    (swaps_involved m + 1)
    (volume_involved_usd m + usd)%Qc
    (top_pairs m).

(** The set [involved] of one record. *)
Definition involved_of (s : SwapRecord) : list string :=
  Set_of (map lower_addr [origin s; sender s; recipient s]).

Definition involved_step (usd : Qc) (per : gmap string Acc) (addr : string)
  : gmap string Acc :=
  match per !! addr with
  | Some m => <[addr := bump_involved usd m]> per
  | None => per
  end.

(** The body of the loop over [all]. *)
Definition record_step (per : gmap string Acc) (s : SwapRecord)
  : gmap string Acc :=
  let usd := usd_of s in
  let pair := pair_of s in
  let o := lower_addr (origin s) in
  let per1 :=
    match per !! o with
    | Some m => <[o := bump_execution pair usd m]> per
    | None => per
    end in
  fold_left (involved_step usd) (involved_of s) per1.

(** The state of [per] when the loop over [all] is done. *)
Definition accumulate (addresses : list string) (all : list SwapRecord)
  : gmap string Acc :=
  fold_left record_step all (init_per addresses).

(** ** Finalisation of the top pairs (node.js 209-215) *)

(** [Array.prototype.sort] with the comparator [(x, y) => y[1] - x[1]]:
    a stable sort, descending in the USD component. *)
Fixpoint insert_desc (x : string * Qc) (l : PairMap) : PairMap :=
  match l with
  | [] => [x]
  | y :: rest =>
      if decide (x.2 < y.2)%Qc then y :: insert_desc x rest
      else x :: y :: rest
  end.

Definition sort_desc (l : PairMap) : PairMap :=
  foldr insert_desc [] l.

(** The value returned by [aggregate]: [{ per, allCount }]. *)
Record AggregateResult := mkAggregate {
  per : gmap string WalletMetrics;
  allCount : nat
}.

Section Aggregate.

(** [humanUSD] renders a number with the platform's
    [Intl.NumberFormat]; the rendering is a parameter. *)
Variable humanUSD : Qc → string.

Definition show_pair (e : string * Qc) : string :=
  e.1 +:+ " (" +:+ humanUSD e.2 +:+ ")".

Definition finalize (m : Acc) : WalletMetrics :=
  mkMetrics (address m)
    (swaps_execution m)
    (volume_execution_usd m)
    (swaps_involved m)
    (volume_involved_usd m)
    (map show_pair (take 5 (sort_desc (top_pairs m)))).

Definition aggregate (addresses : list string)
    (swapsOrigin swapsSender swapsRecipient : list SwapRecord)
  : AggregateResult :=
  let all := merged swapsOrigin swapsSender swapsRecipient in
  mkAggregate (finalize <$> accumulate addresses all) (length all).

End Aggregate.

(** ** The network layer (node.js 123-155) *)

Inductive Query := SWAPS_QUERY | SWAPS_QUERY_SENDER | SWAPS_QUERY_RECIPIENT.

(** [{ addresses, start, end }] *)
Record VarsBase := mkVarsBase {
  vb_addresses : list string;
  vb_start : Z;
  vb_end : Z
}.

(** [{ ...varsBase, first, skip }] *)
Record Vars := mkVars {
  base : VarsBase;
  v_first : nat;
  v_skip : nat
}.

(** A thrown value: its [message] property, when it has one, and the
    string it converts to inside a template literal. *)
Record JsError := mkError {
  message : option string;
  as_string : string
}.

(** [new Error(msg)] *)
Definition Error (msg : string) : JsError :=
  mkError (Some msg) ("Error: " +:+ msg).

(** What [client.request] does: it rejects, or it resolves to a value
    [res] whose [swaps] member may be missing. *)
Inductive Response :=
  | Rejected (e : JsError)
  | Resolved (swaps : option (list SwapRecord)).

(** [new GraphQLClient(url, { timeout })] *)
Record GraphQLClient := mkClient {
  url : string;
  timeout : Z
}.

(** One request as the network sees it. *)
Record Event := mkEvent {
  ev_url : string;
  ev_query : Query;
  ev_vars : Vars
}.

(** How an [async] function ends: it returns, it throws, or it is still
    awaiting when the fuel of the model is spent. *)
Inductive Outcome (A : Type) :=
  | Returned (a : A)
  | Thrown (e : JsError)
  | Pending.
Arguments Returned {A}.
Arguments Thrown {A}.
Arguments Pending {A}.

(** [{ swapsOrigin, swapsSender, swapsRecipient, endpoint }] *)
Record Fetched := mkFetched {
  swapsOrigin : list SwapRecord;
  swapsSender : list SwapRecord;
  swapsRecipient : list SwapRecord;
  endpoint : string
}.

(** [String.prototype.trim] on ASCII white space *)
Definition is_space (c : ascii) : bool :=
  bool_decide (nat_of_ascii c ∈ [9; 10; 11; 12; 13; 32]).

Fixpoint trim_start (l : list ascii) : list ascii :=
  match l with
  | c :: rest => if is_space c then trim_start rest else l
  | [] => []
  end.

Definition trim (s : string) : string :=
  string_of_list_ascii
    (rev (trim_start (rev (trim_start (list_ascii_of_string s))))).

(** [.filter(Boolean)] on possibly missing strings *)
Definition filter_Boolean (l : list (option string)) : list string :=
  omap (λ x, match x with
             | Some s => if decide (s = "") then None else Some s
             | None => None
             end) l.

Definition first : nat := 1000.

Section Fetch.

(** The state of everything outside the program, and the answer of the
    endpoint [url] to one request in that state. *)
Variable World : Type.
Variable request : string → Query → Vars → World → Response * World.

(** The value of [process.env.SUBGRAPH_URL], if set. *)
Variable SUBGRAPH_URL : option string.

Definition DEFAULT_URLS : list string :=
  filter_Boolean
    [ trim <$> SUBGRAPH_URL;
      Some "https://api.thegraph.com/subgraphs/id/A1BC1hzDsK4NTeXBpKQnDBphngpYZAwDUF7dEBfa3jHK";
      Some "https://api.thegraph.com/subgraphs/id/78EUqzJmEVJsAKvWghn7qotf9LVGqcTQxJhT5z84ZmgJ" ].

(** Computations that talk to the network: the world is threaded
    through, and the requests issued are collected in order. *)
Definition Net (A : Type) : Type :=
  World → Outcome A * World * list Event.

Definition ret {A} (a : A) : Net A := λ w, (Returned a, w, []).

Definition throw {A} (e : JsError) : Net A := λ w, (Thrown e, w, []).

Definition bind {A B} (m : Net A) (k : A → Net B) : Net B := λ w,
  match m w with
  | (Returned a, w1, t1) =>
      match k a w1 with (r, w2, t2) => (r, w2, t1 ++ t2) end
  | (Thrown e, w1, t1) => (Thrown e, w1, t1)
  | (Pending, w1, t1) => (Pending, w1, t1)
  end.

(** [try { m } catch (e) { h e }] *)
Definition try_catch {A} (m : Net A) (h : JsError → Net A) : Net A := λ w,
  match m w with
  | (Thrown e, w1, t1) =>
      match h e w1 with (r, w2, t2) => (r, w2, t1 ++ t2) end
  | other => other
  end.

(** [await client.request(query, vars)] *)
Definition client_request (client : GraphQLClient) (query : Query)
    (vars : Vars) : Net (option (list SwapRecord)) := λ w,
  match request (url client) query vars w with
  | (Resolved swaps, w1) =>
      (Returned swaps, w1, [mkEvent (url client) query vars])
  | (Rejected e, w1) =>
      (Thrown e, w1, [mkEvent (url client) query vars])
  end.

Notation "x <- m ;; k" := (bind m (λ x, k))
  (at level 100, m at next level, right associativity).

(** The [while (true)] loop of [fetchAll]; one unit of fuel per turn. *)
Fixpoint fetchAll_loop (fuel : nat) (client : GraphQLClient)
    (query : Query) (varsBase : VarsBase) (skip : nat)
    (out : list SwapRecord) : Net (list SwapRecord) :=
  match fuel with
  | 0 => λ w, (Pending, w, [])
  | S fuel' =>
      res <- client_request client query (mkVars varsBase first skip) ;;
      let rows := default [] res in
      let out' := out ++ rows in
      if decide (length rows < first) then ret out'
      else fetchAll_loop fuel' client query varsBase (skip + first) out'
  end.

Definition fetchAll (fuel : nat) (client : GraphQLClient) (query : Query)
    (varsBase : VarsBase) : Net (list SwapRecord) :=
  fetchAll_loop fuel client query varsBase 0 [].

(** The body of the [try] block for one endpoint. *)
Definition fetch_endpoint (fuel : nat) (u : string)
    (addresses : list string) (start end_ : Z) : Net Fetched :=
  let client := mkClient u 30000%Z in
  let vb := mkVarsBase addresses start end_ in
  swapsOrigin <- fetchAll fuel client SWAPS_QUERY vb ;;
  swapsSender <- fetchAll fuel client SWAPS_QUERY_SENDER vb ;;
  swapsRecipient <- fetchAll fuel client SWAPS_QUERY_RECIPIENT vb ;;
  ret (mkFetched swapsOrigin swapsSender swapsRecipient u).

(** [lastErr?.message || lastErr] inside the template literal *)
Definition lastErr_text (lastErr : option JsError) : string :=
  match lastErr with
  | None => "undefined"
  | Some e => str_or (message e) (as_string e)
  end.

Definition all_failed (lastErr : option JsError) : JsError :=
  Error ("All subgraph endpoints failed. Last error: "
         +:+ lastErr_text lastErr).

(** The [for (const url of ...)] loop with its [lastErr] variable. *)
Fixpoint fallback_loop (fuel : nat) (urls : list string)
    (addresses : list string) (start end_ : Z)
    (lastErr : option JsError) : Net Fetched :=
  match urls with
  | [] => throw (all_failed lastErr)
  | u :: rest =>
      try_catch (fetch_endpoint fuel u addresses start end_)
        (λ e, fallback_loop fuel rest addresses start end_ (Some e))
  end.

Definition fetchWithFallbacks (fuel : nat) (addresses : list string)
    (start end_ : Z) : Net Fetched :=
  fallback_loop fuel DEFAULT_URLS addresses start end_ None.

End Fetch.

Arguments ret {World A}.
Arguments throw {World A}.
Arguments bind {World A B}.
Arguments try_catch {World A}.
Arguments client_request {World}.
Arguments fetchAll_loop {World}.
Arguments fetchAll {World}.
Arguments fetch_endpoint {World}.
Arguments fallback_loop {World}.
Arguments fetchWithFallbacks {World}.

(** ** The command line and the wallet file (node.js 16-59) *)

(** [String.prototype.split] with a one-character separator: the pieces
    between the separators, at least one. *)
Fixpoint String_split (sep : ascii) (s : string) : list string :=
  match s with
  | EmptyString => [EmptyString]
  | String c rest =>
      if decide (c = sep) then EmptyString :: String_split sep rest
      else match String_split sep rest with
           | piece :: pieces => String c piece :: pieces
           | [] => [String c EmptyString]
           end
  end.

(** [String.prototype.split] with the pattern [/\r?\n/]. *)
Fixpoint split_lines (s : string) : list string :=
  match s with
  | EmptyString => [EmptyString]
  | String c rest =>
      let keep :=
        match split_lines rest with
        | piece :: pieces => String c piece :: pieces
        | [] => [String c EmptyString]
        end in
      if decide (c = "010"%char) then EmptyString :: split_lines rest
      else if decide (c = "013"%char) then
        match rest with
        | String c' rest' =>
            if decide (c' = "010"%char)
            then EmptyString :: split_lines rest'
            else keep
        | EmptyString => keep
        end
      else keep
  end.

(** [.filter(Boolean)] on strings: the empty string is falsy. *)
Definition filter_truthy (l : list string) : list string :=
  filter (λ s, s ≠ "") l.

(** The value of [process.argv] is a parameter of [getArg]; a missing
    result is [undefined]. *)
Definition getArg (argv : list string) (name : string)
    (def : option string) : option string :=
  match List.find (String.prefix ("--" +:+ name +:+ "=")) argv with
  | Some hit => String_split "=" hit !! 1
  | None => def
  end.

Definition parseAddressList (str : option string) : list string :=
  filter_truthy (map trim (String_split "," (str_or str ""))).

(** The loop of [uniqLower] with its two variables. *)
Definition uniqLower_step (st : gset string * list string) (x : string)
  : gset string * list string :=
  let v := toLowerCase x in
  if decide (v ∈ st.1) then st else ({[v]} ∪ st.1, st.2 ++ [v]).

Definition uniqLower (arr : list string) : list string :=
  (fold_left uniqLower_step arr (∅, [])).2.

(** [fs.readFileSync] is a parameter: the content of the file, or
    nothing when the call throws. *)
Definition loadWalletsFromFile (readFileSync : string → option string)
    (file : string) : list string :=
  match readFileSync file with
  | Some raw => uniqLower (filter_truthy (map trim (split_lines raw)))
  | None => []
  end.

(** ** The requested addresses and the console table (node.js 237-270) *)

(** [uniqLower([...cliAddresses, ...fileAddresses])], with the command
    line, the file system and [process.env.WALLET_FILE] as parameters. *)
Definition main_addresses (argv : list string)
    (readFileSync : string → option string) (WALLET_FILE : option string)
  : list string :=
  let cliAddresses := parseAddressList (getArg argv "addresses" None) in
  let fileAddresses :=
    loadWalletsFromFile readFileSync (str_or WALLET_FILE "account.txt") in
  uniqLower (cliAddresses ++ fileAddresses).

Record TableRow := mkRow {
  wallet : string;
  swaps_exec : nat;
  vol_exec_usd : Qc;
  row_swaps_involved : nat;
  vol_involved_usd : Qc;
  pass : string;
  row_top_pairs : string
}.

(** The threshold [min] is a number or [NaN]; every comparison with
    [NaN] is false. *)
Definition table_row (min : option Qc) (a : string) (x : WalletMetrics)
  : TableRow :=
  mkRow a
    (swaps_execution x)
    (volume_execution_usd x)
    (swaps_involved x)
    (volume_involved_usd x)
    (match min with
     | Some q => if decide (q ≤ volume_execution_usd x)%Qc then "✅" else "❌"
     | None => "❌"
     end)
    (String.concat "; " (top_pairs x)).

(** [addresses.map(a => { const x = per[a]; ... })]: reading a field of
    a missing entry throws, which is [None] here. *)
Definition table (min : option Qc) (addresses : list string)
    (per : gmap string WalletMetrics) : option (list TableRow) :=
  mapM (λ a, x ← per !! a; Some (table_row min a x)) addresses.

(** * The vocabulary of the statements *)

(** What one [addSet] step does to the records, tags forgotten. *)
Definition keep_first (acc : list SwapRecord) (s : SwapRecord)
  : list SwapRecord :=
  if bool_decide (swap_id s ∈ map swap_id acc) then acc else acc ++ [s].

(** The effect of one record on the metrics of the address [a]. *)
Definition metrics_step (a : string) (m : Acc) (s : SwapRecord) : Acc :=
  let m1 :=
    if decide (lower_addr (origin s) = a)
    then bump_execution (pair_of s) (usd_of s) m else m in
  if decide (a ∈ involved_of s) then bump_involved (usd_of s) m1 else m1.

(** [a] is the origin of [s]; [a] has some role in [s]. *)
Definition Executes (a : string) (s : SwapRecord) : Prop :=
  lower_addr (origin s) = a.
Definition Involves (a : string) (s : SwapRecord) : Prop :=
  a ∈ [lower_addr (origin s); lower_addr (sender s); lower_addr (recipient s)].

Global Instance Executes_dec a s : Decision (Executes a s).
Proof. unfold Executes. apply _. Defined.
Global Instance Involves_dec a s : Decision (Involves a s).
Proof. unfold Involves. apply _. Defined.

Definition sum_usd (l : list SwapRecord) : Qc :=
  foldr (λ s acc, usd_of s + acc)%Qc 0%Qc l.

(** The pair accumulation as a fold of its own. *)
Definition pair_add (tp : PairMap) (s : SwapRecord) : PairMap :=
  Map_set tp (pair_of s)
    (default 0%Qc (Map_get tp (pair_of s)) + usd_of s)%Qc.

Definition HasPair (p : string) (s : SwapRecord) : Prop := pair_of s = p.
Global Instance HasPair_dec p s : Decision (HasPair p s).
Proof. unfold HasPair. apply _. Defined.

(** The number of roles (origin, sender, recipient) in which the record
    names the address, after lowercasing. *)
Definition roles_held (a : string) (s : SwapRecord) : nat :=
  length (filter (a =.)
    [lower_addr (origin s); lower_addr (sender s); lower_addr (recipient s)]).

(** [x] may stand before [y]: its USD value is not below. *)
Definition usd_ge (x y : string * Qc) : Prop := (y.2 ≤ x.2)%Qc.
Definition usd_gt (x y : string * Qc) : Prop := (y.2 < x.2)%Qc.

(** The field values agree for equal identifiers. *)
Definition consistent (l : list SwapRecord) : Prop :=
  ∀ s s', s ∈ l → s' ∈ l → swap_id s = swap_id s' → s = s'.

(** The endpoint of [client] holds the matching records [recs] and
    answers a request for [first] rows after [skip] with that slice. *)
Definition static_source {World : Type}
    (request : string → Query → Vars → World → Response * World)
    (client : GraphQLClient) (query : Query) (varsBase : VarsBase)
    (recs : list SwapRecord) : Prop :=
  ∀ skip w,
    (request (url client) query (mkVars varsBase first skip) w).1
    = Resolved (Some (take first (drop skip recs))).

(** [count] requests for consecutive pages, the first at offset [from]. *)
Definition pages (client : GraphQLClient) (query : Query)
    (varsBase : VarsBase) (from count : nat) : list Event :=
  map (λ k, mkEvent (url client) query
              (mkVars varsBase first (from + k * first)))
      (seq 0 count).

(** ⌈n / p⌉ *)
Definition ceil_div (n p : nat) : nat := (n + p - 1) / p.

Section Attempts.
Context {World : Type}.
Variable request : string → Query → Vars → World → Response * World.
Variables (fuel : nat) (addresses : list string) (start end_ : Z).

(** One of the three paginated queries of the endpoint [u]. *)
Definition run_query (u : string) (q : Query)
  : World → Outcome (list SwapRecord) * World * list Event :=
  fetchAll request fuel (mkClient u 30000%Z) q
    (mkVarsBase addresses start end_).

(** Some query of the endpoint throws; the ones before it returned. *)
Inductive endpoint_fails (u : string) (w : World)
  : JsError → World → list Event → Prop :=
  | origin_fails e w1 t1 :
      run_query u SWAPS_QUERY w = (Thrown e, w1, t1) →
      endpoint_fails u w e w1 t1
  | sender_fails o e w1 w2 t1 t2 :
      run_query u SWAPS_QUERY w = (Returned o, w1, t1) →
      run_query u SWAPS_QUERY_SENDER w1 = (Thrown e, w2, t2) →
      endpoint_fails u w e w2 (t1 ++ t2)
  | recipient_fails o s e w1 w2 w3 t1 t2 t3 :
      run_query u SWAPS_QUERY w = (Returned o, w1, t1) →
      run_query u SWAPS_QUERY_SENDER w1 = (Returned s, w2, t2) →
      run_query u SWAPS_QUERY_RECIPIENT w2 = (Thrown e, w3, t3) →
      endpoint_fails u w e w3 (t1 ++ t2 ++ t3).

(** All three queries of the endpoint return. *)
Inductive endpoint_completes (u : string) (w : World)
  : Fetched → World → list Event → Prop :=
  | three_complete o s r w1 w2 w3 t1 t2 t3 :
      run_query u SWAPS_QUERY w = (Returned o, w1, t1) →
      run_query u SWAPS_QUERY_SENDER w1 = (Returned s, w2, t2) →
      run_query u SWAPS_QUERY_RECIPIENT w2 = (Returned r, w3, t3) →
      endpoint_completes u w (mkFetched o s r u) w3 (t1 ++ t2 ++ t3).

(** The endpoints of the list fail one after the other; the errors
    and the requests are collected in order. *)
Inductive fail_in_turn
  : list string → World → list JsError → World → list Event → Prop :=
  | fail_nil w : fail_in_turn [] w [] w []
  | fail_cons u rest w e w1 t1 errs w2 t2 :
      endpoint_fails u w e w1 t1 →
      fail_in_turn rest w1 errs w2 t2 →
      fail_in_turn (u :: rest) w (e :: errs) w2 (t1 ++ t2).

End Attempts.

(** The characters of a string. *)
Notation chars := list_ascii_of_string (only parsing).

(** The part of a string before the first occurrence of a character. *)
Fixpoint String_before (c : ascii) (s : string) : string :=
  match s with
  | EmptyString => EmptyString
  | String x rest =>
      if decide (x = c) then EmptyString else String x (String_before c rest)
  end.

(** A string that [trim] and [toLowerCase] leave alone and that is not
    empty: the shape of an address once it is read. *)
Definition clean (s : string) : Prop :=
  s ≠ "" ∧ trim s = s.

(** The endpoint of [client] answers the request for page [j] of the
    query with [script j], whatever the state of the world. *)
Definition scripted {World : Type}
    (request : string → Query → Vars → World → Response * World)
    (client : GraphQLClient) (query : Query) (varsBase : VarsBase)
    (script : nat → Response) : Prop :=
  ∀ j w,
    (request (url client) query (mkVars varsBase first (j * first)) w).1
    = script j.

(** The rows [fetchAll] takes from a response: [res?.swaps || []]. *)
Definition rows_of (r : Response) : list SwapRecord :=
  match r with
  | Resolved swaps => default [] swaps
  | Rejected _ => []
  end.

(** A response after which [fetchAll] asks for the next page, and one
    after which it stops. *)
Definition full_page (r : Response) : Prop :=
  match r with
  | Resolved swaps => (first ≤ length (default [] swaps))%nat
  | Rejected _ => False
  end.
Definition short_page (r : Response) : Prop :=
  match r with
  | Resolved swaps => (length (default [] swaps) < first)%nat
  | Rejected _ => False
  end.

(** The rows of the pages [j], ..., [j + k - 1] of a script. *)
Definition rows_from (script : nat → Response) (j k : nat)
  : list SwapRecord :=
  concat (map (λ i, rows_of (script i)) (seq j k)).

(** A string of white space only. *)
Definition blank (s : string) : Prop :=
  Forall (λ c, is_space c = true) (chars s).


(** The origin of the record is one of the addresses. *)
Definition Requested (addresses : list string) (s : SwapRecord) : Prop :=
  lower_addr (origin s) ∈ addresses.

Global Instance Requested_dec addresses s : Decision (Requested addresses s).
Proof. unfold Requested. apply _. Defined.



(** * Example data *)

(** A rendering that agrees with [Intl.NumberFormat('en-US', { style:
    'currency', currency: 'USD', maximumFractionDigits: 2 })] on the whole
    amounts of absolute value below 1000, the only ones rendered below. *)
Definition usd_sample (x : Qc) : string :=
  (if decide (x < 0)%Qc then "-" else "")
  +:+ "$" +:+ pretty (Z.abs_N (Qnum (this x))) +:+ ".00".

Definition symbols (t0 t1 : string) : option Pool :=
  Some (mkPool (Some "500") (Some (mkToken (Some t0) None))
          (Some (mkToken (Some t1) None))).

(** The end-to-end scenario of the specification: [id3] is returned by
    the by-origin and by the by-sender query. *)
Definition id1 : SwapRecord :=
  mkSwap "id1" 1 (AmountNum (Qc_of_Z 6000)) (Some "0xabc") None None None.
Definition id2 : SwapRecord :=
  mkSwap "id2" 2 (AmountNum (Qc_of_Z 4000))
    (Some "0xother") (Some "0xabc") (Some "0xdef") None.
Definition id3 : SwapRecord :=
  mkSwap "id3" 3 (AmountNum (Qc_of_Z 1)) (Some "0xabc") None None None.

(** A swap that [0xabc] sends to itself through a router as origin. *)
Definition self_swap : SwapRecord :=
  mkSwap "id4" 4 (AmountNum (Qc_of_Z 250))
    (Some "0xrouter") (Some "0xABC") (Some "0xabc") (symbols "CAKE" "WBNB").

(** Six swaps of [0xabc], one per pair, with the volumes of the
    specification's example, met in a scrambled order. *)
Definition pair_swap (i : string) (t0 : string) (usd : Z) : SwapRecord :=
  mkSwap i 0 (AmountNum (Qc_of_Z usd)) (Some "0xabc") (Some "0xrouter")
    (Some "0xabc") (symbols t0 "USDT").

Definition six_pairs : list SwapRecord :=
  [ pair_swap "p1" "C" 200; pair_swap "p2" "F" 10; pair_swap "p3" "A" 500;
    pair_swap "p4" "E" 50; pair_swap "p5" "B" 300; pair_swap "p6" "D" 100 ].

(** Two swaps with negative amounts: one that [0xabc] originates, one
    that it only receives. *)
Definition refund1 : SwapRecord :=
  mkSwap "n1" 1 (AmountNum (Qc_of_Z (-5)))
    (Some "0xabc") (Some "0xrouter") (Some "0xabc") None.
Definition refund2 : SwapRecord :=
  mkSwap "n2" 2 (AmountNum (Qc_of_Z (-3)))
    (Some "0xother") (Some "0xrouter") (Some "0xabc") None.

(** Two swaps of [0xabc] with the same amount on two pairs.  The
    by-origin query returns both; the second is also returned by the
    by-sender and the by-recipient query. *)
Definition tie1 : SwapRecord :=
  mkSwap "t1" 1 (AmountNum (Qc_of_Z 10))
    (Some "0xabc") (Some "0xrouter") (Some "0xrouter") (symbols "WBNB" "USDT").
Definition tie2 : SwapRecord :=
  mkSwap "t2" 2 (AmountNum (Qc_of_Z 10))
    (Some "0xabc") (Some "0xabc") (Some "0xabc") (symbols "CAKE" "USDT").

(** An endpoint that serves a fixed list of records page by page. *)
Definition paged_source (recs : list SwapRecord)
  : string → Query → Vars → () → Response * () :=
  λ _ _ vars w,
    (Resolved (Some (take (v_first vars) (drop (v_skip vars) recs))), w).

(** A thousand swaps: exactly one full page. *)
Definition thousand : list SwapRecord :=
  map (λ i, mkSwap (pretty i) (Z.of_nat i) (AmountNum (Qc_of_Z 1))
              (Some "0xabc") None None None)
      (seq 0 1000).

(** Three endpoints: the one of the environment refuses the connection,
    the second answers the by-origin query and times out on the
    by-sender query, the third answers all three. *)
Definition url2 : string :=
  "https://api.thegraph.com/subgraphs/id/A1BC1hzDsK4NTeXBpKQnDBphngpYZAwDUF7dEBfa3jHK".
Definition url3 : string :=
  "https://api.thegraph.com/subgraphs/id/78EUqzJmEVJsAKvWghn7qotf9LVGqcTQxJhT5z84ZmgJ".

Definition refused : JsError :=
  mkError (Some "connect ECONNREFUSED") "FetchError: connect ECONNREFUSED".
Definition timed_out : JsError :=
  mkError (Some "The operation was aborted.")
    "AbortError: The operation was aborted.".

Definition answers (q : Query) : list SwapRecord :=
  match q with
  | SWAPS_QUERY => [id1; id3]
  | SWAPS_QUERY_SENDER => [id2; id3]
  | SWAPS_QUERY_RECIPIENT => []
  end.

Definition third_up : string → Query → Vars → () → Response * () :=
  λ u q vars w,
    if decide (u = url3) then paged_source (answers q) u q vars w
    else if decide (u = url2) then
      match q with
      | SWAPS_QUERY => paged_source (answers q) u q vars w
      | _ => (Rejected timed_out, w)
      end
    else (Rejected refused, w).

Definition all_down : string → Query → Vars → () → Response * () :=
  λ u q vars w,
    if decide (u = url3) then (Rejected timed_out, w)
    else (Rejected refused, w).

(** A command line, and a file system whose only file is the default
    wallet file, with a Windows line end, padding and an empty line. *)
Definition argv_sample : list string :=
  [ "node"; "node.js"; "--min=5000"; "--addresses= 0xABC ,0xdef,";
    "--addresses=0x999"; "--date=2024-01-01=utc" ].

Definition wallet_fs : string → option string :=
  λ file,
    if decide (file = "account.txt")
    then Some ("0xAbC" +:+ String "013" (String "010" " 0x123 ")
               +:+ String "010" (String "010" "0xabc"))
    else None.

(** An endpoint that answers the request at offset [skip] with entry
    [skip / 1000] of a script. *)
Definition scripted_net (script : nat → Response)
  : string → Query → Vars → () → Response * () :=
  λ _ _ vars w, (script (v_skip vars / first), w).

(** One full page, then a response without [swaps]; one full page, then
    a time-out; full pages for ever. *)
Definition then_nothing (j : nat) : Response :=
  if decide (j = 0) then Resolved (Some thousand) else Resolved None.
Definition then_timeout (j : nat) : Response :=
  if decide (j = 0) then Resolved (Some thousand) else Rejected timed_out.
Definition always_full (j : nat) : Response := Resolved (Some thousand).

(** * Properties *)

(** Closed decidable facts are settled by evaluation. *)
Ltac by_evaluation := apply (bool_decide_unpack _); by vm_compute.

(** ** Insertion-ordered sets *)

Section SetFacts.
Context `{EqDecision A}.
Implicit Types (x y : A) (s xs : list A).

Lemma elem_of_Set_add x y s : x ∈ Set_add y s ↔ x = y ∨ x ∈ s.
Proof.
  unfold Set_add. case_decide; [|rewrite elem_of_app, list_elem_of_singleton];
    naive_solver.
Qed.

Lemma NoDup_Set_add y s : NoDup s → NoDup (Set_add y s).
Proof.
  intros Hs. unfold Set_add. case_decide; [done|].
  apply NoDup_app. split_and!; [done| |apply NoDup_singleton].
  intros x Hx ->%list_elem_of_singleton. done.
Qed.

Lemma Set_of_fold xs s :
  let r := fold_left (λ s x, Set_add x s) xs s in
  (NoDup s → NoDup r) ∧ ∀ x, x ∈ r ↔ x ∈ s ∨ x ∈ xs.
Proof.
  revert s. induction xs as [|y xs IH]; intros s; simpl.
  { split; [done|]. intros x. rewrite elem_of_nil. naive_solver. }
  destruct (IH (Set_add y s)) as [IH1 IH2]. split.
  - intros Hs. by apply IH1, NoDup_Set_add.
  - intros x. rewrite IH2, elem_of_Set_add, elem_of_cons. naive_solver.
Qed.

Lemma elem_of_Set_of x xs : x ∈ Set_of xs ↔ x ∈ xs.
Proof.
  unfold Set_of. destruct (Set_of_fold xs []) as [_ H].
  rewrite H, elem_of_nil. naive_solver.
Qed.

Lemma NoDup_Set_of xs : NoDup (Set_of xs).
Proof.
  unfold Set_of. destruct (Set_of_fold xs []) as [H _].
  apply H, NoDup_nil_2.
Qed.
End SetFacts.

(** ** The merge keeps the first record of every identifier *)

Lemma map_rec_idx_tag idx i tag : map rec (idx_tag idx i tag) = map rec idx.
Proof.
  induction idx as [|e idx IH]; simpl; [done|].
  case_decide; simpl; [done|]. by rewrite IH.
Qed.

Lemma map_rec_addSet_step tag idx s :
  map rec (addSet_step tag idx s) = keep_first (map rec idx) s.
Proof.
  unfold addSet_step, keep_first, idx_has.
  rewrite map_map. case_bool_decide.
  - apply map_rec_idx_tag.
  - by rewrite map_app.
Qed.

Lemma map_rec_addSet rows tag idx :
  map rec (addSet rows tag idx) = fold_left keep_first rows (map rec idx).
Proof.
  unfold addSet. revert idx.
  induction rows as [|s rows IH]; intros idx; simpl; [done|].
  by rewrite IH, map_rec_addSet_step.
Qed.

Lemma merged_keep_first O S R :
  merged O S R = fold_left keep_first (O ++ S ++ R) [].
Proof.
  unfold merged, idxById.
  by rewrite !fold_left_app, !map_rec_addSet.
Qed.

Lemma keep_first_fold l acc :
  let r := fold_left keep_first l acc in
  (NoDup (map swap_id acc) → NoDup (map swap_id r))
  ∧ (∀ s, s ∈ r → s ∈ acc ∨ s ∈ l)
  ∧ (∀ i, i ∈ map swap_id r ↔ i ∈ map swap_id acc ∨ i ∈ map swap_id l).
Proof.
  revert acc. induction l as [|x l IH]; intros acc; simpl.
  { split_and!; [done|auto|]. intros i. rewrite elem_of_nil. naive_solver. }
  destruct (IH (keep_first acc x)) as (IH1 & IH2 & IH3).
  assert (∀ i, i ∈ map swap_id (keep_first acc x)
               ↔ i ∈ map swap_id acc ∨ i = swap_id x) as Hids.
  { intros i. unfold keep_first. case_bool_decide.
    - naive_solver.
    - rewrite map_app, elem_of_app. simpl.
      rewrite list_elem_of_singleton. naive_solver. }
  split_and!.
  - intros Hacc. apply IH1. unfold keep_first. case_bool_decide; [done|].
    rewrite map_app. apply NoDup_app. split_and!; [done| |apply NoDup_singleton].
    simpl. intros i Hi ->%list_elem_of_singleton. done.
  - intros s [Hs|Hs]%IH2; [|right; by right].
    unfold keep_first in Hs. case_bool_decide; [by left|].
    apply elem_of_app in Hs as [Hs| ->%list_elem_of_singleton]; [by left|].
    right; by left.
  - intros i. rewrite IH3, Hids, elem_of_cons. naive_solver.
Qed.

Lemma merged_NoDup O S R : NoDup (map swap_id (merged O S R)).
Proof.
  rewrite merged_keep_first.
  destruct (keep_first_fold (O ++ S ++ R) []) as (H & _ & _).
  apply H. simpl. apply NoDup_nil_2.
Qed.

Lemma merged_incl O S R s : s ∈ merged O S R → s ∈ O ++ S ++ R.
Proof.
  rewrite merged_keep_first.
  destruct (keep_first_fold (O ++ S ++ R) []) as (_ & H & _).
  intros Hs. apply H in Hs as [Hs|Hs]; [by apply elem_of_nil in Hs|done].
Qed.

Lemma merged_ids O S R i :
  i ∈ map swap_id (merged O S R) ↔ i ∈ map swap_id (O ++ S ++ R).
Proof.
  rewrite merged_keep_first.
  destruct (keep_first_fold (O ++ S ++ R) []) as (_ & _ & H).
  rewrite H. simpl. rewrite elem_of_nil. naive_solver.
Qed.

(** A list that already holds one record per identifier is its own
    merge. *)
Lemma keep_first_fold_NoDup l acc :
  NoDup (map swap_id (acc ++ l)) → fold_left keep_first l acc = acc ++ l.
Proof.
  revert acc. induction l as [|x l IH]; intros acc Hnd; simpl.
  { by rewrite app_nil_r. }
  assert (keep_first acc x = acc ++ [x]) as ->.
  { unfold keep_first. case_bool_decide as Hin; [|done].
    rewrite map_app in Hnd. apply NoDup_app in Hnd as (_ & Hd & _).
    destruct (Hd _ Hin). simpl. left. }
  rewrite IH; rewrite <-app_assoc; done.
Qed.

Lemma merged_idem O S R : merged (merged O S R) [] [] = merged O S R.
Proof.
  rewrite (merged_keep_first (merged O S R)). rewrite !app_nil_r.
  rewrite keep_first_fold_NoDup; [done|]. simpl. apply merged_NoDup.
Qed.

(** ** What the scan of the records does to one address *)

Lemma involved_of_elem a s : a ∈ involved_of s ↔ Involves a s.
Proof. unfold involved_of, Involves. apply elem_of_Set_of. Qed.

Lemma Executes_Involves a s : Executes a s → Involves a s.
Proof. unfold Executes, Involves. intros <-. left. Qed.

Lemma involved_step_lookup usd (per : gmap string Acc) x a :
  involved_step usd per x !! a
  = if decide (a = x) then bump_involved usd <$> per !! a else per !! a.
Proof.
  unfold involved_step. destruct (decide (a = x)) as [Hax|Hax].
  - subst x. destruct (per !! a) eqn:E; simpl; [|done].
    by rewrite lookup_insert_eq.
  - destruct (per !! x) eqn:E; [|done]. by rewrite lookup_insert_ne.
Qed.

Lemma involved_fold_lookup usd L (per : gmap string Acc) a :
  NoDup L →
  fold_left (involved_step usd) L per !! a
  = if decide (a ∈ L) then bump_involved usd <$> per !! a else per !! a.
Proof.
  intros HL. revert per.
  induction HL as [|x L Hx HL IH]; intros per; simpl.
  { done. }
  rewrite IH, involved_step_lookup.
  destruct (decide (a = x)) as [->|Hne].
  - rewrite (decide_False (P := x ∈ L)) by done.
    rewrite (decide_True (P := x ∈ x :: L)) by left. done.
  - destruct (decide (a ∈ L)) as [Hin|Hin].
    + rewrite (decide_True (P := a ∈ x :: L)) by (by right). done.
    + rewrite (decide_False (P := a ∈ x :: L)); [done|].
      by intros [?|?]%elem_of_cons.
Qed.

Lemma record_step_lookup (per : gmap string Acc) s a :
  record_step per s !! a = (λ m, metrics_step a m s) <$> per !! a.
Proof.
  unfold record_step, metrics_step.
  rewrite involved_fold_lookup by apply NoDup_Set_of.
  set (o := lower_addr (origin s)).
  assert ((match per !! o with
           | Some m => <[o := bump_execution (pair_of s) (usd_of s) m]> per
           | None => per
           end) !! a
          = (λ m, if decide (o = a)
                  then bump_execution (pair_of s) (usd_of s) m else m)
              <$> per !! a) as ->.
  { destruct (decide (o = a)) as [->|Hne].
    - destruct (per !! a) eqn:E; simpl; [|by rewrite E].
      by rewrite lookup_insert_eq.
    - destruct (per !! o) eqn:E.
      + rewrite lookup_insert_ne by done. by destruct (per !! a).
      + by destruct (per !! a). }
  destruct (per !! a); simpl; [|by case_decide].
  by case_decide.
Qed.

Lemma scan_lookup all (per : gmap string Acc) a :
  fold_left record_step all per !! a
  = (λ m, fold_left (metrics_step a) all m) <$> per !! a.
Proof.
  revert per. induction all as [|s all IH]; intros per; simpl.
  { by destruct (per !! a). }
  rewrite IH, record_step_lookup. by destruct (per !! a).
Qed.

Lemma init_per_fold addresses (per0 : gmap string Acc) a :
  fold_left (λ per a, <[a := zero_metrics a]> per) addresses per0 !! a
  = if decide (a ∈ addresses) then Some (zero_metrics a) else per0 !! a.
Proof.
  revert per0. induction addresses as [|x l IH]; intros per0; simpl.
  { done. }
  rewrite IH. destruct (decide (a ∈ l)) as [Hin|Hin].
  - rewrite (decide_True (P := a ∈ x :: l)) by (by right). done.
  - destruct (decide (a = x)) as [->|Hne].
    + rewrite (decide_True (P := x ∈ x :: l)) by left.
      by rewrite lookup_insert_eq.
    + rewrite lookup_insert_ne by done.
      rewrite (decide_False (P := a ∈ x :: l)); [done|].
      by intros [?|?]%elem_of_cons.
Qed.

Lemma init_per_lookup addresses a :
  init_per addresses !! a
  = if decide (a ∈ addresses) then Some (zero_metrics a) else None.
Proof. unfold init_per. by rewrite init_per_fold, lookup_empty. Qed.

Lemma accumulate_lookup addresses all a :
  accumulate addresses all !! a
  = if decide (a ∈ addresses)
    then Some (fold_left (metrics_step a) all (zero_metrics a)) else None.
Proof.
  unfold accumulate. rewrite scan_lookup, init_per_lookup.
  by case_decide.
Qed.

(** The fields of the metrics after the scan, in closed form. *)
Lemma metrics_fold a all m :
  let r := fold_left (metrics_step a) all m in
  address r = address m
  ∧ swaps_execution r
    = swaps_execution m + length (filter (Executes a) all)
  ∧ volume_execution_usd r
    = (volume_execution_usd m + sum_usd (filter (Executes a) all))%Qc
  ∧ swaps_involved r
    = swaps_involved m + length (filter (Involves a) all)
  ∧ volume_involved_usd r
    = (volume_involved_usd m + sum_usd (filter (Involves a) all))%Qc
  ∧ top_pairs r
    = fold_left pair_add (filter (Executes a) all) (top_pairs m).
Proof.
  revert m. induction all as [|s all IH]; intros m; simpl.
  { rewrite !Nat.add_0_r, !Qcplus_0_r. done. }
  destruct (IH (metrics_step a m s)) as (IH1 & IH2 & IH3 & IH4 & IH5 & IH6).
  rewrite IH1, IH2, IH3, IH4, IH5, IH6. clear IH IH1 IH2 IH3 IH4 IH5 IH6.
  unfold metrics_step.
  destruct (decide (lower_addr (origin s) = a)) as [Ho|Ho].
  - rewrite decide_True by (by apply involved_of_elem, Executes_Involves).
    rewrite !filter_cons_True by (done || by apply Executes_Involves).
    simpl. split_and!; try done; try lia; ring.
  - rewrite (filter_cons_False (Executes a)) by done.
    destruct (decide (a ∈ involved_of s)) as [Hi|Hi].
    + rewrite filter_cons_True by (by apply involved_of_elem).
      simpl. split_and!; try done; try lia; ring.
    + rewrite filter_cons_False by (by rewrite <-involved_of_elem).
      done.
Qed.

(** ** The pair accumulation *)

Lemma Map_get_set {V} (m : list (string * V)) k v k' :
  Map_get (Map_set m k v) k' = if decide (k = k') then Some v else Map_get m k'.
Proof.
  induction m as [|[k0 v0] m IH]; simpl.
  { destruct (decide (k = k')); done. }
  destruct (decide (k0 = k)) as [->|Hne]; simpl.
  - destruct (decide (k = k')); done.
  - rewrite IH. destruct (decide (k0 = k')) as [->|]; [|done].
    by rewrite decide_False.
Qed.

Lemma Map_set_keys {V} (m : list (string * V)) k v :
  (NoDup m.*1 → NoDup (Map_set m k v).*1)
  ∧ ∀ k', k' ∈ (Map_set m k v).*1 ↔ k' = k ∨ k' ∈ m.*1.
Proof.
  induction m as [|[k0 v0] m [IH1 IH2]]; simpl.
  { split; [intros _; apply NoDup_singleton|].
    intros k'. rewrite list_elem_of_singleton, elem_of_nil. naive_solver. }
  destruct (decide (k0 = k)) as [->|Hne]; simpl.
  - split; [done|]. intros k'. rewrite elem_of_cons. naive_solver.
  - split.
    + rewrite !NoDup_cons. intros [Hk0 Hm]. split; [|by apply IH1].
      rewrite IH2. naive_solver.
    + intros k'. rewrite !elem_of_cons, IH2. naive_solver.
Qed.

(** In a map with distinct keys the entries are what [get] returns. *)
Lemma Map_get_elem {V} (m : list (string * V)) k v :
  NoDup m.*1 → (k, v) ∈ m ↔ Map_get m k = Some v.
Proof.
  induction m as [|[k0 v0] m IH]; simpl.
  { intros _. rewrite elem_of_nil. naive_solver. }
  rewrite NoDup_cons. intros [Hk0 Hm]. rewrite elem_of_cons, IH by done.
  destruct (decide (k0 = k)) as [->|Hne].
  - split; [|naive_solver]. intros [?|Hg]; [naive_solver|].
    apply IH in Hg; [|done]. destruct Hk0.
    apply list_elem_of_fmap. by exists (k, v).
  - naive_solver.
Qed.

Lemma pair_fold l (tp : PairMap) :
  let r := fold_left pair_add l tp in
  (NoDup tp.*1 → NoDup r.*1)
  ∧ (∀ p, p ∈ r.*1 ↔ p ∈ tp.*1 ∨ p ∈ map pair_of l)
  ∧ (∀ p, default 0%Qc (Map_get r p)
          = (default 0%Qc (Map_get tp p) + sum_usd (filter (HasPair p) l))%Qc).
Proof.
  revert tp. induction l as [|s l IH]; intros tp; simpl.
  { split_and!; [done| |intros; by rewrite Qcplus_0_r].
    intros p. rewrite elem_of_nil. naive_solver. }
  destruct (IH (pair_add tp s)) as (IH1 & IH2 & IH3).
  destruct (Map_set_keys tp (pair_of s)
              (default 0%Qc (Map_get tp (pair_of s)) + usd_of s)%Qc)
    as [HK1 HK2].
  split_and!.
  - intros Htp. by apply IH1, HK1.
  - intros p. rewrite IH2. unfold pair_add. rewrite HK2, elem_of_cons.
    naive_solver.
  - intros p. rewrite IH3. unfold pair_add at 1. rewrite Map_get_set.
    destruct (decide (pair_of s = p)) as [Hp|Hp].
    + rewrite filter_cons_True by done. simpl. rewrite Hp. ring.
    + rewrite filter_cons_False by done. done.
Qed.

(** ** C1: every identifier is counted once *)

(** C1 (dedup idempotence).  The records that [aggregate] scans hold every
    identifier of the three raw lists exactly once, whatever the number of
    lists it occurred in; the result is the one [aggregate] gives when
    those records are handed over in a single list; and for a requested
    address each metrics field is the count, or the USD sum, over these
    records, so a record contributes at most once to each field. *)
Theorem dedup_idempotence (humanUSD : Qc → string) (addresses : list string)
    (O S R : list SwapRecord) :
  let all := merged O S R in
  NoDup (map swap_id all)
  ∧ (∀ X, X ∈ map swap_id all
          ↔ X ∈ map swap_id O ∨ X ∈ map swap_id S ∨ X ∈ map swap_id R)
  ∧ (∀ s, s ∈ all → s ∈ O ∨ s ∈ S ∨ s ∈ R)
  ∧ aggregate humanUSD addresses O S R = aggregate humanUSD addresses all [] []
  ∧ ∀ a, a ∈ addresses →
      ∃ m acc,
        per (aggregate humanUSD addresses O S R) !! a = Some m
        ∧ accumulate addresses all !! a = Some acc
        ∧ swaps_involved m = length (filter (Involves a) all)
        ∧ volume_involved_usd m = sum_usd (filter (Involves a) all)
        ∧ swaps_execution m = length (filter (Executes a) all)
        ∧ volume_execution_usd m = sum_usd (filter (Executes a) all)
        ∧ ∀ p, default 0%Qc (Map_get (top_pairs acc) p)
               = sum_usd (filter (HasPair p) (filter (Executes a) all)).
Proof.
  intros all. split_and!.
  - apply merged_NoDup.
  - intros X. unfold all. rewrite merged_ids, !map_app, !elem_of_app. done.
  - intros s Hs%merged_incl. by rewrite !elem_of_app in Hs.
  - unfold aggregate, all. by rewrite merged_idem.
  - intros a Ha. unfold aggregate. simpl. fold all.
    rewrite lookup_fmap, accumulate_lookup, decide_True by done. simpl.
    destruct (metrics_fold a all (zero_metrics a))
      as (_ & H2 & H3 & H4 & H5 & H6).
    exists (finalize humanUSD (fold_left (metrics_step a) all (zero_metrics a))),
      (fold_left (metrics_step a) all (zero_metrics a)).
    split_and!; [done|done|..].
    + simpl. by rewrite H4.
    + simpl. by rewrite H5, Qcplus_0_l.
    + simpl. by rewrite H2.
    + simpl. by rewrite H3, Qcplus_0_l.
    + intros p. rewrite H6.
      destruct (pair_fold (filter (Executes a) all) []) as (_ & _ & HP).
      rewrite HP. simpl. by rewrite Qcplus_0_l.
Qed.

(** ** One more record in the scan *)

Lemma accumulate_snoc addresses done s a :
  accumulate addresses (done ++ [s]) !! a
  = (λ m, metrics_step a m s) <$> accumulate addresses done !! a.
Proof.
  unfold accumulate. rewrite fold_left_app. simpl.
  apply record_step_lookup.
Qed.

Lemma accumulate_requested addresses all a :
  a ∈ addresses → is_Some (accumulate addresses all !! a).
Proof. intros Ha. rewrite accumulate_lookup, decide_True by done. eauto. Qed.

Lemma metrics_step_skip a m s : ¬ Involves a s → metrics_step a m s = m.
Proof.
  intros Hi. unfold metrics_step.
  rewrite (decide_False (P := a ∈ involved_of s))
    by (by rewrite involved_of_elem).
  rewrite decide_False; [done|].
  intros Ho. apply Hi, Executes_Involves. exact Ho.
Qed.

Lemma metrics_fold_skip a m all :
  Forall (λ s, ¬ Involves a s) all → fold_left (metrics_step a) all m = m.
Proof.
  induction 1 as [|s all Hs Hall IH]; simpl; [done|].
  by rewrite metrics_step_skip.
Qed.

Lemma roles_held_Involves a s : (1 ≤ roles_held a s)%nat → Involves a s.
Proof.
  unfold roles_held, Involves. intros Hlen.
  destruct (filter (a =.) _) as [|x l] eqn:E; simpl in Hlen; [lia|].
  assert (x ∈ filter (a =.)
    [lower_addr (origin s); lower_addr (sender s); lower_addr (recipient s)])
    as Hx by (rewrite E; left).
  apply list_elem_of_filter in Hx as [-> Hx]. done.
Qed.

(** ** C4: one record, several roles, one increment *)

(** C4 (involvement non-duplication).  When the scan of [aggregate] reaches
    a record that names the requested address [a] in two or three of its
    roles, the involved swap count of [a] grows by exactly one and its
    involved volume by the USD amount of the record, once. *)
Theorem involvement_non_duplication (addresses : list string)
    (done : list SwapRecord) (s : SwapRecord) (a : string) :
  a ∈ addresses →
  (2 ≤ roles_held a s)%nat →
  ∃ m m',
    accumulate addresses done !! a = Some m
    ∧ accumulate addresses (done ++ [s]) !! a = Some m'
    ∧ swaps_involved m' = swaps_involved m + 1
    ∧ volume_involved_usd m' = (volume_involved_usd m + usd_of s)%Qc.
Proof.
  intros Ha Hroles.
  destruct (accumulate_requested addresses done a Ha) as [m Hm].
  exists m, (metrics_step a m s). rewrite accumulate_snoc, Hm.
  split_and!; [done|done|..]; unfold metrics_step;
    rewrite (decide_True (P := a ∈ involved_of s))
      by (apply involved_of_elem, roles_held_Involves; lia);
    by case_decide.
Qed.

(** ** C5: execution metrics belong to the origin *)

(** C5 (execution exclusivity).  When the scan of [aggregate] reaches a
    record whose lowercased origin is not a requested address, the
    execution count, the execution volume and the pair accumulation of
    every requested address stay as they were, whatever the sender and
    the recipient of the record are. *)
Theorem execution_exclusivity (addresses : list string)
    (done : list SwapRecord) (s : SwapRecord) (a : string) :
  lower_addr (origin s) ∉ addresses →
  a ∈ addresses →
  ∃ m m',
    accumulate addresses done !! a = Some m
    ∧ accumulate addresses (done ++ [s]) !! a = Some m'
    ∧ swaps_execution m' = swaps_execution m
    ∧ volume_execution_usd m' = volume_execution_usd m
    ∧ top_pairs m' = top_pairs m.
Proof.
  intros Ho Ha.
  destruct (accumulate_requested addresses done a Ha) as [m Hm].
  exists m, (metrics_step a m s). rewrite accumulate_snoc, Hm.
  split_and!; [done|done|..]; unfold metrics_step;
    rewrite (decide_False (P := lower_addr (origin s) = a))
      by (intros Heq; apply Ho; by rewrite Heq);
    by case_decide.
Qed.

(** ** C7: the order between the execution and the involved metrics *)

Lemma sum_usd_nonneg l :
  Forall (λ s, (0 ≤ usd_of s)%Qc) l → (0 ≤ sum_usd l)%Qc.
Proof.
  induction 1 as [|s l Hs Hl IH]; simpl; [done|].
  rewrite <-(Qcplus_0_l 0). by apply Qcplus_le_compat.
Qed.

Lemma filter_length_mono {A} (P Q : A → Prop)
    `{!∀ x, Decision (P x)} `{!∀ x, Decision (Q x)} (l : list A) :
  (∀ x, P x → Q x) → (length (filter P l) ≤ length (filter Q l))%nat.
Proof.
  intros HPQ. induction l as [|x l IH]; simpl; [done|].
  rewrite !filter_cons. destruct (decide (P x)) as [HP|HP].
  - rewrite decide_True by auto. simpl. lia.
  - destruct (decide (Q x)); simpl; lia.
Qed.

Lemma sum_usd_filter_mono (P Q : SwapRecord → Prop)
    `{!∀ x, Decision (P x)} `{!∀ x, Decision (Q x)} l :
  (∀ x, P x → Q x) →
  Forall (λ s, (0 ≤ usd_of s)%Qc) l →
  (sum_usd (filter P l) ≤ sum_usd (filter Q l))%Qc.
Proof.
  intros HPQ. induction 1 as [|x l Hx Hl IH]; simpl; [done|].
  rewrite !filter_cons. destruct (decide (P x)) as [HP|HP].
  - rewrite decide_True by auto. simpl.
    by apply Qcplus_le_compat.
  - destruct (decide (Q x)); simpl; [|done].
    rewrite <-(Qcplus_0_l (sum_usd (filter P l))).
    by apply Qcplus_le_compat.
Qed.

(** C7, as the code has it.  The two counts are natural numbers and the
    involved count is never below the execution count.  The volumes are
    sums of the amounts of the records, so they are ordered, and the
    execution volume is non-negative, when no record carries a negative
    USD amount. *)
Theorem metrics_invariant (humanUSD : Qc → string)
    (addresses : list string) (O S R : list SwapRecord)
    (a : string) (m : WalletMetrics) :
  per (aggregate humanUSD addresses O S R) !! a = Some m →
  (0 ≤ swaps_execution m ∧ swaps_execution m ≤ swaps_involved m)%nat
  ∧ ((∀ s, s ∈ O ++ S ++ R → (0 ≤ usd_of s)%Qc) →
     (0 ≤ volume_execution_usd m)%Qc
     ∧ (volume_execution_usd m ≤ volume_involved_usd m)%Qc).
Proof.
  unfold aggregate. simpl. rewrite lookup_fmap, accumulate_lookup.
  case_decide; [|done]. simpl. intros [= <-].
  destruct (metrics_fold a (merged O S R) (zero_metrics a))
    as (_ & H2 & H3 & H4 & H5 & _).
  simpl. rewrite H2, H3, H4, H5. simpl. rewrite !Qcplus_0_l. split.
  - split; [lia|]. apply (filter_length_mono _ _), Executes_Involves.
  - intros Hpos.
    assert (Forall (λ s, (0 ≤ usd_of s)%Qc) (merged O S R)) as Hall.
    { apply Forall_forall. intros s Hs. by apply Hpos, merged_incl. }
    split.
    + apply sum_usd_nonneg, Forall_forall. intros s [_ Hs]%list_elem_of_filter.
      by apply (proj1 (Forall_forall _ _) Hall).
    + by apply (sum_usd_filter_mono _ _), Hall; apply Executes_Involves.
Qed.

(** ** C9 and C10: the keys of the result *)

Lemma finalize_zero humanUSD a :
  finalize humanUSD (zero_metrics a) = mkMetrics a 0 0%Qc 0 0%Qc [].
Proof. reflexivity. Qed.

Lemma aggregate_lookup humanUSD addresses O S R a :
  per (aggregate humanUSD addresses O S R) !! a
  = if decide (a ∈ addresses)
    then Some (finalize humanUSD
                 (fold_left (metrics_step a) (merged O S R) (zero_metrics a)))
    else None.
Proof.
  unfold aggregate. simpl. rewrite lookup_fmap, accumulate_lookup.
  by case_decide.
Qed.

Lemma aggregate_untouched humanUSD addresses O S R a :
  a ∈ addresses →
  (∀ s, s ∈ O ++ S ++ R → ¬ Involves a s) →
  per (aggregate humanUSD addresses O S R) !! a
  = Some (mkMetrics a 0 0%Qc 0 0%Qc []).
Proof.
  intros Ha Hno. rewrite aggregate_lookup, decide_True by done.
  rewrite metrics_fold_skip; [by rewrite finalize_zero|].
  apply Forall_forall. intros s Hs. by apply Hno, merged_incl.
Qed.

Lemma aggregate_keys humanUSD addresses O S R a :
  is_Some (per (aggregate humanUSD addresses O S R) !! a) ↔ a ∈ addresses.
Proof.
  rewrite aggregate_lookup. case_decide.
  - split; [done|eauto].
  - split; [by intros [? ?]|done].
Qed.

Lemma aggregate_dom humanUSD addresses O S R :
  dom (per (aggregate humanUSD addresses O S R)) = list_to_set addresses.
Proof.
  apply set_eq. intros a.
  by rewrite elem_of_dom, aggregate_keys, elem_of_list_to_set.
Qed.

(** C9.  The keys of the mapping that [aggregate] returns are the requested
    addresses and nothing else; a requested address that no record names
    in any role has the zero-valued entry. *)
Theorem result_keys (humanUSD : Qc → string) (addresses : list string)
    (O S R : list SwapRecord) :
  dom (per (aggregate humanUSD addresses O S R)) = list_to_set addresses
  ∧ (∀ a, is_Some (per (aggregate humanUSD addresses O S R) !! a)
          ↔ a ∈ addresses)
  ∧ (∀ a, a ∈ addresses →
          (∀ s, s ∈ O ++ S ++ R → ¬ Involves a s) →
          per (aggregate humanUSD addresses O S R) !! a
          = Some (mkMetrics a 0 0%Qc 0 0%Qc [])).
Proof.
  split_and!.
  - apply aggregate_dom.
  - apply aggregate_keys.
  - intros a. apply aggregate_untouched.
Qed.

Lemma is_upper_lower_ascii c : is_upper (lower_ascii c) = false.
Proof. by destruct c as [[] [] [] [] [] [] [] []]. Qed.

Lemma has_upper_toLowerCase s : has_upper (toLowerCase s) = false.
Proof.
  induction s as [|c s IH]; simpl; [done|].
  by rewrite is_upper_lower_ascii, IH.
Qed.

Lemma upper_not_involved a s : has_upper a = true → ¬ Involves a s.
Proof.
  intros Hup. unfold Involves, lower_addr.
  rewrite !elem_of_cons, elem_of_nil.
  intros [->|[->|[->|[]]]]; by rewrite has_upper_toLowerCase in Hup.
Qed.

(** C10.  The record fields are lowercased, the requested addresses are
    not: a requested address with an uppercase letter matches no record
    and keeps the zero-valued entry with no top pair. *)
Theorem uppercase_address_unmatched (humanUSD : Qc → string)
    (addresses : list string) (O S R : list SwapRecord) (a : string) :
  a ∈ addresses →
  has_upper a = true →
  per (aggregate humanUSD addresses O S R) !! a
  = Some (mkMetrics a 0 0%Qc 0 0%Qc []).
Proof.
  intros Ha Hup. apply aggregate_untouched; [done|].
  intros s _. by apply upper_not_involved.
Qed.

(** ** The stable descending sort *)

Lemma insert_desc_perm x l : insert_desc x l ≡ₚ x :: l.
Proof.
  induction l as [|y l IH]; simpl; [done|].
  case_decide; [|done]. rewrite IH. apply Permutation_swap.
Qed.

Lemma sort_desc_perm l : sort_desc l ≡ₚ l.
Proof.
  induction l as [|x l IH]; simpl; [done|].
  by rewrite insert_desc_perm, IH.
Qed.

Lemma insert_desc_sorted x l :
  StronglySorted usd_ge l → StronglySorted usd_ge (insert_desc x l).
Proof.
  induction 1 as [|y l Hl IH Hy]; simpl.
  { repeat constructor. }
  case_decide as Hxy.
  - constructor; [done|]. rewrite insert_desc_perm.
    constructor; [|done]. unfold usd_ge. by apply Qclt_le_weak.
  - apply Qcnot_lt_le in Hxy. constructor; [by constructor|].
    constructor; [done|].
    eapply Forall_impl; [exact Hy|]. unfold usd_ge. intros z Hz.
    by etrans.
Qed.

Lemma sort_desc_sorted l : StronglySorted usd_ge (sort_desc l).
Proof.
  induction l as [|x l IH]; simpl; [constructor|].
  by apply insert_desc_sorted.
Qed.

(** Without ties the sorted list is strictly descending, hence the same
    for every arrangement of the entries. *)
Lemma sorted_strict l :
  StronglySorted usd_ge l → NoDup l.*2 → StronglySorted usd_gt l.
Proof.
  induction 1 as [|x l Hl IH Hx]; simpl; [constructor|].
  rewrite NoDup_cons. intros [Hnin Hnd]. constructor; [by apply IH|].
  apply Forall_forall. intros y Hy.
  rewrite Forall_forall in Hx. specialize (Hx y Hy).
  unfold usd_ge in Hx. unfold usd_gt.
  apply Qcle_lt_or_eq in Hx as [Hlt|Heq]; [done|].
  destruct Hnin. rewrite <-Heq. apply list_elem_of_fmap. by exists y.
Qed.

Global Instance usd_gt_antisymm : AntiSymm (=) usd_gt.
Proof.
  intros x y Hxy Hyx. unfold usd_gt in *.
  destruct (Qclt_not_le _ _ Hxy). by apply Qclt_le_weak.
Qed.

Lemma sort_desc_unique l1 l2 :
  l1 ≡ₚ l2 → NoDup l1.*2 → sort_desc l1 = sort_desc l2.
Proof.
  intros Hperm Hnd.
  apply (StronglySorted_unique usd_gt).
  - apply sorted_strict; [apply sort_desc_sorted|].
    by rewrite sort_desc_perm.
  - apply sorted_strict; [apply sort_desc_sorted|].
    by rewrite sort_desc_perm, <-Hperm.
  - by rewrite !sort_desc_perm.
Qed.

(** Stability: entries of equal value keep their order. *)
Lemma insert_desc_stable v x l :
  filter (λ e, e.2 = v) (insert_desc x l) = filter (λ e, e.2 = v) (x :: l).
Proof.
  induction l as [|y l IH]; simpl; [done|].
  case_decide as Hxy; [|done].
  rewrite filter_cons, IH, !filter_cons.
  destruct (decide (y.2 = v)) as [Hy|Hy], (decide (x.2 = v)) as [Hx|Hx];
    try done.
  rewrite Hy, Hx in Hxy. by apply Qclt_not_eq in Hxy.
Qed.

Lemma sort_desc_stable v l :
  filter (λ e, e.2 = v) (sort_desc l) = filter (λ e, e.2 = v) l.
Proof.
  induction l as [|x l IH]; simpl; [done|].
  by rewrite insert_desc_stable, !filter_cons, IH.
Qed.

(** ** C6: the five largest pairs *)

Lemma finalize_top_pairs humanUSD (acc : Acc) :
  top_pairs (finalize humanUSD acc)
  = map (show_pair humanUSD) (take 5 (sort_desc (top_pairs acc))).
Proof. reflexivity. Qed.

(** C6 (top-pair selection).  The finalised [top_pairs] of an address are
    the first five entries, at most, of its pair accumulation sorted by
    descending USD, each rendered by [show_pair].  In particular six pairs
    with the volumes 500, 300, 200, 100, 50 and 10, accumulated in any
    order, give the first five in that order and leave the sixth out. *)
Theorem top_pair_selection (humanUSD : Qc → string)
    (addresses : list string) (O S R : list SwapRecord)
    (a : string) (m : WalletMetrics) :
  per (aggregate humanUSD addresses O S R) !! a = Some m →
  (∃ acc : Acc,
     accumulate addresses (merged O S R) !! a = Some acc
     ∧ top_pairs m
       = map (show_pair humanUSD) (take 5 (sort_desc (top_pairs acc)))
     ∧ (length (top_pairs m) ≤ 5)%nat
     ∧ sort_desc (top_pairs acc) ≡ₚ top_pairs acc
     ∧ StronglySorted usd_ge (sort_desc (top_pairs acc)))
  ∧ (∀ (A B C D E F : string) (acc : Acc),
       top_pairs acc ≡ₚ
         [(A, Qc_of_Z 500); (B, Qc_of_Z 300); (C, Qc_of_Z 200);
          (D, Qc_of_Z 100); (E, Qc_of_Z 50); (F, Qc_of_Z 10)] →
       top_pairs (finalize humanUSD acc)
       = map (show_pair humanUSD)
           [(A, Qc_of_Z 500); (B, Qc_of_Z 300); (C, Qc_of_Z 200);
            (D, Qc_of_Z 100); (E, Qc_of_Z 50)]).
Proof.
  intros Hm. split.
  - unfold aggregate in Hm. simpl in Hm. rewrite lookup_fmap in Hm.
    destruct (accumulate addresses (merged O S R) !! a) as [acc|] eqn:Hacc;
      [|done].
    simpl in Hm. injection Hm as <-. exists acc.
    split_and!; [done|apply finalize_top_pairs| |apply sort_desc_perm
                |apply sort_desc_sorted].
    rewrite finalize_top_pairs, length_map, length_take. lia.
  - intros A B C D E F acc Hperm. rewrite finalize_top_pairs.
    assert (NoDup (top_pairs acc).*2) as Hnd.
    { rewrite Hperm. simpl. by_evaluation. }
    rewrite (sort_desc_unique _ _ Hperm Hnd).
    reflexivity.
Qed.

(** ** C8: rearranging the input *)

Lemma merged_elem O S R s :
  consistent (O ++ S ++ R) → s ∈ merged O S R ↔ s ∈ O ++ S ++ R.
Proof.
  intros Hc. split; [apply merged_incl|]. intros Hs.
  assert (swap_id s ∈ map swap_id (merged O S R)) as Hid.
  { apply merged_ids, list_elem_of_fmap. by exists s. }
  apply list_elem_of_fmap in Hid as (s' & Heq & Hs').
  rewrite (Hc s s'); [done|done|by apply merged_incl|done].
Qed.

Lemma merged_perm O S R O' S' R' :
  consistent (O ++ S ++ R) →
  (∀ s, s ∈ O' ++ S' ++ R' ↔ s ∈ O ++ S ++ R) →
  merged O S R ≡ₚ merged O' S' R'.
Proof.
  intros Hc Hsame.
  assert (consistent (O' ++ S' ++ R')) as Hc'.
  { intros s s' Hs Hs'. apply Hc; by apply Hsame. }
  apply NoDup_Permutation.
  - apply (NoDup_fmap_1 swap_id), merged_NoDup.
  - apply (NoDup_fmap_1 swap_id), merged_NoDup.
  - intros s. by rewrite !merged_elem, Hsame.
Qed.

Global Instance sum_usd_perm : Proper ((≡ₚ) ==> (=)) sum_usd.
Proof.
  induction 1 as [|x l1 l2 H IH|x y l|l1 l2 l3 H1 IH1 H2 IH2]; simpl.
  - done.
  - by rewrite IH.
  - ring.
  - by rewrite IH1.
Qed.

Lemma Map_get_is_Some {V} (m : list (string * V)) k :
  is_Some (Map_get m k) ↔ k ∈ m.*1.
Proof.
  induction m as [|[k0 v0] m IH]; simpl.
  { rewrite elem_of_nil. split; [by intros [? ?]|done]. }
  rewrite elem_of_cons. destruct (decide (k0 = k)) as [->|Hne].
  - split; [by left|eauto].
  - rewrite IH. naive_solver.
Qed.

Lemma pair_fold_perm l1 l2 :
  l1 ≡ₚ l2 → fold_left pair_add l1 [] ≡ₚ fold_left pair_add l2 [].
Proof.
  intros Hperm.
  destruct (pair_fold l1 []) as (Hnd1 & Hk1 & Hv1).
  destruct (pair_fold l2 []) as (Hnd2 & Hk2 & Hv2).
  specialize (Hnd1 (NoDup_nil_2 (A:=string))).
  specialize (Hnd2 (NoDup_nil_2 (A:=string))).
  cbv zeta in *.
  set (r1 := fold_left pair_add l1 []) in *.
  set (r2 := fold_left pair_add l2 []) in *.
  assert (∀ k, Map_get r1 k = Map_get r2 k) as Hget.
  { intros k.
    assert (k ∈ r1.*1 ↔ k ∈ r2.*1) as Hk.
    { rewrite Hk1, Hk2. by rewrite Hperm. }
    specialize (Hv1 k). specialize (Hv2 k). rewrite Hperm in Hv1.
    rewrite <-Hv2 in Hv1. rewrite <-!Map_get_is_Some in Hk.
    destruct (Map_get r1 k) as [v1|], (Map_get r2 k) as [v2|]; simpl in *.
    - by rewrite Hv1.
    - destruct Hk as [Hk _]. by destruct Hk as [? ?]; [eauto|].
    - destruct Hk as [_ Hk]. by destruct Hk as [? ?]; [eauto|].
    - done. }
  apply NoDup_Permutation.
  - by apply (NoDup_fmap_1 fst).
  - by apply (NoDup_fmap_1 fst).
  - intros [k v]. by rewrite !Map_get_elem, Hget.
Qed.

(** C8, as the code has it.  Take two arrangements of the same records
    over the three lists, the field values agreeing for equal identifiers.
    The distinct-record total, the keys, and for every address the four
    counts and volumes are the same.  The top pairs are the same as well
    when the accumulated pair volumes of the address are pairwise
    distinct. *)
Theorem order_independence (humanUSD : Qc → string)
    (addresses : list string) (O S R O' S' R' : list SwapRecord) :
  consistent (O ++ S ++ R) →
  (∀ s, s ∈ O' ++ S' ++ R' ↔ s ∈ O ++ S ++ R) →
  let r := aggregate humanUSD addresses O S R in
  let r' := aggregate humanUSD addresses O' S' R' in
  allCount r = allCount r'
  ∧ dom (per r) = dom (per r')
  ∧ ∀ a m, per r !! a = Some m →
      ∃ m', per r' !! a = Some m'
        ∧ address m' = address m
        ∧ swaps_execution m' = swaps_execution m
        ∧ volume_execution_usd m' = volume_execution_usd m
        ∧ swaps_involved m' = swaps_involved m
        ∧ volume_involved_usd m' = volume_involved_usd m
        ∧ ∀ acc : Acc,
            accumulate addresses (merged O S R) !! a = Some acc →
            NoDup (top_pairs acc).*2 →
            top_pairs m' = top_pairs m.
Proof.
  intros Hc Hsame r r'.
  pose proof (merged_perm O S R O' S' R' Hc Hsame) as Hperm.
  split_and!.
  - unfold r, r', aggregate. simpl. by rewrite Hperm.
  - unfold r, r'. by rewrite !aggregate_dom.
  - intros a m. unfold r, r'. rewrite !aggregate_lookup.
    case_decide as Ha; [|done]. intros [= <-].
    eexists. split; [done|].
    destruct (metrics_fold a (merged O S R) (zero_metrics a))
      as (H1 & H2 & H3 & H4 & H5 & H6).
    destruct (metrics_fold a (merged O' S' R') (zero_metrics a))
      as (H1' & H2' & H3' & H4' & H5' & H6').
    cbv zeta in *. simpl.
    rewrite H1, H2, H3, H4, H5, H1', H2', H3', H4', H5', Hperm.
    split_and!; try done.
    intros acc Hacc Hnd.
    rewrite accumulate_lookup, decide_True in Hacc by done.
    injection Hacc as <-.
    rewrite H6', H6. rewrite H6 in Hnd. simpl in *.
    f_equal. f_equal. symmetry. apply sort_desc_unique; [|done].
    apply pair_fold_perm. by rewrite Hperm.
Qed.

(** ** C2: pagination against a source that does not change *)

Lemma first_pos : 0 < first.
Proof. unfold first. lia. Qed.

Section Pagination.
Context {World : Type}.
Variable request : string → Query → Vars → World → Response * World.
Variables (client : GraphQLClient) (query : Query) (varsBase : VarsBase).

Lemma pages_S from count :
  pages client query varsBase from (S count)
  = mkEvent (url client) query (mkVars varsBase first from)
    :: pages client query varsBase (from + first) count.
Proof.
  unfold pages. simpl seq. rewrite <-fmap_S_seq. cbn [map fmap list_fmap].
  rewrite Nat.mul_0_l, Nat.add_0_r. f_equal.
  rewrite <-list_fmap_compose. apply list_fmap_ext. intros _ k _.
  unfold compose. do 2 f_equal. lia.
Qed.

Lemma fetchAll_loop_static recs fuel skip w :
  static_source request client query varsBase recs →
  (length recs - skip) / first < fuel →
  ∃ w',
    fetchAll_loop request fuel client query varsBase skip (take skip recs) w
    = (Returned recs, w', pages client query varsBase skip (S ((length recs - skip) / first))).
Proof.
  intros Hsrc. revert skip w.
  induction fuel as [|fuel IH]; intros skip w Hfuel; [lia|].
  cbn [fetchAll_loop]. unfold bind, client_request.
  specialize (Hsrc skip w).
  destruct (request (url client) query (mkVars varsBase first skip) w)
    as [resp w1].
  simpl in Hsrc. subst resp. cbn [default]. unfold id.
  rewrite length_take, length_drop.
  destruct (decide (first `min` (length recs - skip) < first))
    as [Hshort|Hfull].
  - assert (length recs - skip < first) as Hlt by lia.
    exists w1. unfold ret. rewrite Nat.div_small by done.
    rewrite (take_ge (drop skip recs)) by (rewrite length_drop; lia).
    rewrite take_drop. rewrite pages_S. done.
  - assert (first ≤ length recs - skip)%nat as Hge by lia.
    rewrite take_take_drop.
    assert ((length recs - skip) / first
            = S ((length recs - (skip + first)) / first)) as Hdiv.
    { replace (length recs - skip)
        with ((length recs - (skip + first)) + 1 * first) by lia.
      rewrite Nat.div_add by (pose proof first_pos; lia). lia. }
    destruct (IH (skip + first) w1) as [w' Hrec]; [lia|].
    exists w'. rewrite Hrec, Hdiv.
    by rewrite (pages_S skip).
Qed.

Lemma request_count n :
  n / first + 1
  = ceil_div n first + (if decide (n mod first = 0) then 1 else 0).
Proof.
  pose proof first_pos as Hp. unfold ceil_div.
  pose proof (Nat.div_mod_eq n first) as Hn.
  pose proof (Nat.mod_upper_bound n first ltac:(lia)) as Hr.
  set (q := n / first) in *. set (r := n mod first) in *.
  case_decide as Hr0.
  - rewrite Nat.add_cancel_r.
    apply (Nat.div_unique _ _ _ (first - 1)); lia.
  - rewrite Nat.add_0_r.
    apply (Nat.div_unique _ _ _ (r - 1)); nia.
Qed.

End Pagination.

(** C2 (pagination completeness).  Against an endpoint that holds [N]
    matching records and serves them in slices of the page size
    [first = 1000], [fetchAll] returns, as soon as it is given the turns
    it needs, exactly these records in their order.  It asks for the
    offsets 0, 1000, 2000, ... and stops at the first page that is
    short: ⌈N/1000⌉ requests, and one more when [N] is a multiple of
    1000, which is a single request for no record at all. *)
Theorem pagination_complete {World : Type}
    (request : string → Query → Vars → World → Response * World)
    (client : GraphQLClient) (query : Query) (varsBase : VarsBase)
    (recs : list SwapRecord) (fuel : nat) (w : World) :
  static_source request client query varsBase recs →
  length recs / first < fuel →
  let requests :=
    ceil_div (length recs) first
    + (if decide (length recs mod first = 0) then 1 else 0) in
  (∃ w',
     fetchAll request fuel client query varsBase w
     = (Returned recs, w', pages client query varsBase 0 requests))
  ∧ (recs = [] → requests = 1).
Proof.
  intros Hsrc Hfuel requests. split.
  - destruct (fetchAll_loop_static request client query varsBase
                recs fuel 0 w Hsrc) as [w' Hrun].
    { by rewrite Nat.sub_0_r. }
    exists w'. unfold fetchAll, requests.
    rewrite <-request_count, Nat.add_1_r. rewrite Nat.sub_0_r in Hrun.
    exact Hrun.
  - intros ->. unfold requests. rewrite <-request_count. simpl length.
    rewrite Nat.div_0_l by (pose proof first_pos; lia). done.
Qed.

(** ** C3: falling back to the next endpoint *)

Section Fallback.
Context {World : Type}.
Variable request : string → Query → Vars → World → Response * World.
Variables (fuel : nat) (addresses : list string) (start end_ : Z).

Lemma fetch_endpoint_fails u w e w' t :
  endpoint_fails request fuel addresses start end_ u w e w' t →
  fetch_endpoint request fuel u addresses start end_ w = (Thrown e, w', t).
Proof.
  destruct 1 as [e w1 t1 H1|o e w1 w2 t1 t2 H1 H2
                |o s e w1 w2 w3 t1 t2 t3 H1 H2 H3];
    unfold run_query in *; unfold fetch_endpoint, bind.
  - by rewrite H1.
  - by rewrite H1, H2.
  - by rewrite H1, H2, H3.
Qed.

Lemma fetch_endpoint_completes u w r w' t :
  endpoint_completes request fuel addresses start end_ u w r w' t →
  fetch_endpoint request fuel u addresses start end_ w = (Returned r, w', t).
Proof.
  destruct 1 as [o s r w1 w2 w3 t1 t2 t3 H1 H2 H3].
  unfold run_query in *. unfold fetch_endpoint, bind, ret.
  rewrite H1, H2, H3. by rewrite app_nil_r.
Qed.

Lemma fallback_loop_skip pre rest lastErr w errs w1 t1 :
  fail_in_turn request fuel addresses start end_ pre w errs w1 t1 →
  fallback_loop request fuel (pre ++ rest) addresses start end_ lastErr w
  = let '(r, w2, t2) :=
      fallback_loop request fuel rest addresses start end_
        (from_option Some lastErr (last errs)) w1 in
    (r, w2, t1 ++ t2).
Proof.
  intros Hfail. revert lastErr.
  induction Hfail as [w|u pre w e w1 t1 errs w2 t2 Hu Hpre IH];
    intros lastErr; simpl.
  { by destruct (fallback_loop _ _ _ _ _ _ _ _) as [[??]?]. }
  unfold try_catch. rewrite (fetch_endpoint_fails _ _ _ _ _ Hu).
  rewrite IH. rewrite last_cons.
  destruct (last errs); simpl;
    destruct (fallback_loop _ _ _ _ _ _ _ _) as [[??]?];
    by rewrite app_assoc.
Qed.

(** Every request of a paginated query goes to the query's client. *)
Lemma fetchAll_loop_events n client q vb skip out w r w' t :
  fetchAll_loop request n client q vb skip out w = (r, w', t) →
  Forall (λ ev, ev_url ev = url client) t.
Proof.
  revert skip out w r w' t.
  induction n as [|n IH]; intros skip out w r w' t; simpl.
  { intros [= _ _ <-]. constructor. }
  unfold bind, client_request.
  destruct (request _ _ _ _) as [[e|swaps] w1].
  { intros [= _ _ <-]. by repeat constructor. }
  case_decide.
  - unfold ret. intros [= _ _ <-]. by repeat constructor.
  - destruct (fetchAll_loop _ _ _ _ _ _ _ _) as [[r2 w2] t2] eqn:Hrec.
    intros [= _ _ <-]. constructor; [done|]. by eapply IH.
Qed.

Lemma run_query_events u q w r w' t :
  run_query request fuel addresses start end_ u q w = (r, w', t) →
  Forall (λ ev, ev_url ev = u) t.
Proof. apply fetchAll_loop_events. Qed.

Lemma endpoint_fails_events u w e w' t :
  endpoint_fails request fuel addresses start end_ u w e w' t →
  Forall (λ ev, ev_url ev = u) t.
Proof.
  destruct 1; rewrite ?Forall_app; repeat split;
    by eapply run_query_events.
Qed.

Lemma endpoint_completes_events u w r w' t :
  endpoint_completes request fuel addresses start end_ u w r w' t →
  Forall (λ ev, ev_url ev = u) t.
Proof.
  destruct 1; rewrite ?Forall_app; repeat split;
    by eapply run_query_events.
Qed.

Lemma fail_in_turn_events urls w errs w' t :
  fail_in_turn request fuel addresses start end_ urls w errs w' t →
  Forall (λ ev, ev_url ev ∈ urls) t.
Proof.
  induction 1 as [|u rest w e w1 t1 errs w2 t2 Hu Hrest IH];
    [constructor|].
  apply Forall_app. split.
  - eapply Forall_impl; [by eapply endpoint_fails_events|].
    intros ev <-. left.
  - eapply Forall_impl; [exact IH|]. intros ev Hev. by right.
Qed.

End Fallback.

(** C3 (fallback correctness).  The endpoints are tried in the order of
    [DEFAULT_URLS].  An endpoint one of whose three queries throws
    contributes nothing but its requests and its error, and the next one
    is tried.  The first endpoint whose three queries all return ends the
    search: its three lists and its URL are the result, and every request
    issued went to it or to an endpoint before it, each of those once.
    When all endpoints fail, the call throws the error built from the
    error of the last endpoint. *)
Theorem fallback_correctness {World : Type}
    (request : string → Query → Vars → World → Response * World)
    (SUBGRAPH_URL : option string) (fuel : nat)
    (addresses : list string) (start end_ : Z) (w : World) :
  (∀ pre u post errs w1 t1 r w2 t2,
     DEFAULT_URLS SUBGRAPH_URL = pre ++ u :: post →
     fail_in_turn request fuel addresses start end_ pre w errs w1 t1 →
     endpoint_completes request fuel addresses start end_ u w1 r w2 t2 →
     fetchWithFallbacks request SUBGRAPH_URL fuel addresses start end_ w
     = (Returned r, w2, t1 ++ t2)
     ∧ endpoint r = u
     ∧ Forall (λ ev, ev_url ev ∈ pre ++ [u]) (t1 ++ t2))
  ∧ (∀ errs w1 t1,
       fail_in_turn request fuel addresses start end_
         (DEFAULT_URLS SUBGRAPH_URL) w errs w1 t1 →
       fetchWithFallbacks request SUBGRAPH_URL fuel addresses start end_ w
       = (Thrown (all_failed (last errs)), w1, t1)
       ∧ message (all_failed (last errs))
         = Some ("All subgraph endpoints failed. Last error: "
                 +:+ lastErr_text (last errs))).
Proof.
  split.
  - intros pre u post errs w1 t1 r w2 t2 Hurls Hpre Hu.
    unfold fetchWithFallbacks. rewrite Hurls.
    rewrite (fallback_loop_skip _ _ _ _ _ _ _ _ _ _ _ _ Hpre).
    simpl. unfold try_catch.
    rewrite (fetch_endpoint_completes _ _ _ _ _ _ _ _ _ _ Hu).
    split_and!; [done|by destruct Hu|].
    apply Forall_app. split.
    + eapply Forall_impl; [by eapply fail_in_turn_events|].
      intros ev Hev. apply elem_of_app. by left.
    + eapply Forall_impl; [by eapply endpoint_completes_events|].
      intros ev <-. apply elem_of_app. right. left.
  - intros errs w1 t1 Hall.
    unfold fetchWithFallbacks.
    rewrite <-(app_nil_r (DEFAULT_URLS SUBGRAPH_URL)).
    rewrite (fallback_loop_skip _ _ _ _ _ _ _ _ _ _ _ _ Hall).
    simpl. rewrite app_nil_r. split; [|done].
    by destruct (last errs).
Qed.

(** ** Strings: lowercasing, trimming, splitting *)

Lemma toLowerCase_fixed s : has_upper s = false → toLowerCase s = s.
Proof.
  induction s as [|c s IH]; simpl; [done|].
  intros [Hc Hs]%orb_false_elim. unfold lower_ascii. by rewrite Hc, IH.
Qed.

Lemma toLowerCase_idem s : toLowerCase (toLowerCase s) = toLowerCase s.
Proof. apply toLowerCase_fixed, has_upper_toLowerCase. Qed.

Lemma toLowerCase_chars s : chars (toLowerCase s) = map lower_ascii (chars s).
Proof. induction s as [|c s IH]; simpl; [done|]. by rewrite IH. Qed.

Lemma toLowerCase_of_chars l :
  toLowerCase (string_of_list_ascii l)
  = string_of_list_ascii (map lower_ascii l).
Proof. induction l as [|c l IH]; simpl; [done|]. by rewrite IH. Qed.

Lemma toLowerCase_empty s : toLowerCase s = "" ↔ s = "".
Proof. by destruct s. Qed.

Lemma is_space_lower_ascii c : is_space (lower_ascii c) = is_space c.
Proof. by destruct c as [[] [] [] [] [] [] [] []]. Qed.

Lemma trim_start_idem l : trim_start (trim_start l) = trim_start l.
Proof.
  induction l as [|c l IH]; simpl; [done|].
  destruct (is_space c) eqn:Hc; [done|]. simpl. by rewrite Hc.
Qed.

Lemma trim_start_head l c t : trim_start l = c :: t → is_space c = false.
Proof.
  induction l as [|x l IH]; simpl; [done|].
  destruct (is_space x) eqn:Hx; [done|]. by intros [= <- _].
Qed.

Lemma trim_start_keep c l : is_space c = false → trim_start (c :: l) = c :: l.
Proof. intros Hc. simpl. by rewrite Hc. Qed.

Lemma trim_start_snoc m c :
  is_space c = false → ∃ m', trim_start (m ++ [c]) = m' ++ [c].
Proof.
  intros Hc. induction m as [|x m IH]; simpl.
  { rewrite Hc. by exists []. }
  destruct (is_space x); [done|]. by exists (x :: m).
Qed.

Lemma trim_start_suffix l : trim_start l `suffix_of` l.
Proof.
  induction l as [|c l IH]; simpl; [done|].
  destruct (is_space c); [by apply suffix_cons_r|done].
Qed.

Lemma trim_start_map_lower l :
  trim_start (map lower_ascii l) = map lower_ascii (trim_start l).
Proof.
  induction l as [|c l IH]; simpl; [done|].
  rewrite is_space_lower_ascii. by destruct (is_space c).
Qed.

Lemma trim_start_spaces l : Forall (λ c, is_space c = true) l → trim_start l = [].
Proof. induction 1 as [|c l Hc Hl IH]; simpl; [done|]. by rewrite Hc. Qed.

(** [trim] on lists of characters. *)
Definition trim_chars (l : list ascii) : list ascii :=
  rev (trim_start (rev (trim_start l))).

Lemma trim_as_chars s : trim s = string_of_list_ascii (trim_chars (chars s)).
Proof. done. Qed.

Lemma trim_chars_trimmed l :
  trim_start (trim_chars l) = trim_chars l
  ∧ trim_start (rev (trim_chars l)) = rev (trim_chars l).
Proof.
  unfold trim_chars. split.
  - destruct (trim_start l) as [|h t] eqn:Hl; [done|].
    apply trim_start_head in Hl. simpl rev.
    destruct (trim_start_snoc (rev t) h Hl) as [m' ->].
    rewrite rev_app_distr. simpl. by rewrite Hl.
  - by rewrite rev_involutive, trim_start_idem.
Qed.

Lemma trim_chars_idem l : trim_chars (trim_chars l) = trim_chars l.
Proof.
  destruct (trim_chars_trimmed l) as [H1 H2].
  unfold trim_chars at 1. by rewrite H1, H2, rev_involutive.
Qed.

Lemma trim_idem s : trim (trim s) = trim s.
Proof.
  rewrite !trim_as_chars, list_ascii_of_string_of_list_ascii.
  by rewrite trim_chars_idem.
Qed.

Lemma trim_start_incl l c : c ∈ trim_start l → c ∈ l.
Proof.
  destruct (trim_start_suffix l) as [k Hk]. rewrite Hk at 2.
  intros Hc. apply elem_of_app. by right.
Qed.

Lemma trim_chars_incl l c : c ∈ trim_chars l → c ∈ l.
Proof.
  unfold trim_chars. rewrite list_elem_of_In, <-in_rev, <-list_elem_of_In.
  intros Hc%trim_start_incl.
  rewrite list_elem_of_In, <-in_rev, <-list_elem_of_In in Hc.
  by apply trim_start_incl.
Qed.

Lemma trim_incl s c : c ∈ chars (trim s) → c ∈ chars s.
Proof.
  rewrite trim_as_chars, list_ascii_of_string_of_list_ascii.
  apply trim_chars_incl.
Qed.

Lemma trim_toLowerCase s : trim (toLowerCase s) = toLowerCase (trim s).
Proof.
  rewrite !trim_as_chars, toLowerCase_chars, toLowerCase_of_chars.
  f_equal. unfold trim_chars.
  by rewrite trim_start_map_lower, <-map_rev, trim_start_map_lower, map_rev.
Qed.

Lemma trim_blank s :
  Forall (λ c, is_space c = true) (chars s) → trim s = "".
Proof.
  intros Hs. rewrite trim_as_chars. unfold trim_chars.
  by rewrite (trim_start_spaces _ Hs).
Qed.

Lemma clean_toLowerCase s : clean s → clean (toLowerCase s).
Proof.
  intros [Hne Htrim]. split.
  - by rewrite toLowerCase_empty.
  - by rewrite trim_toLowerCase, Htrim.
Qed.

Lemma String_split_cons sep s :
  ∃ piece pieces, String_split sep s = piece :: pieces.
Proof.
  destruct s as [|c s]; simpl; [by eexists _, _|].
  case_decide; [by eexists _, _|].
  destruct (String_split sep s); by eexists _, _.
Qed.

Lemma String_split_before sep s :
  String_split sep s !! 0 = Some (String_before sep s).
Proof.
  induction s as [|c s IH]; simpl; [done|].
  case_decide; [done|].
  destruct (String_split sep s) as [|piece pieces]; [done|].
  simpl in *. by injection IH as ->.
Qed.

(** No piece holds the separator. *)
Lemma String_split_pieces sep s :
  Forall (λ piece, sep ∉ chars piece) (String_split sep s).
Proof.
  induction s as [|c s IH]; simpl.
  { repeat constructor. apply not_elem_of_nil. }
  case_decide as Hc.
  { constructor; [apply not_elem_of_nil|done]. }
  destruct (String_split sep s) as [|piece pieces].
  { repeat constructor. simpl. rewrite elem_of_cons, elem_of_nil.
    naive_solver. }
  apply Forall_cons in IH as [Hp Hps]. constructor; [|done].
  simpl. rewrite elem_of_cons. naive_solver.
Qed.

Lemma String_split_app sep p s :
  sep ∉ chars p →
  String_split sep (p +:+ String sep s) = p :: String_split sep s.
Proof.
  induction p as [|c p IH]; simpl.
  { intros _. by rewrite decide_True. }
  rewrite elem_of_cons. intros Hn.
  rewrite decide_False by naive_solver.
  rewrite IH by naive_solver. done.
Qed.

Lemma String_split_whole sep p :
  sep ∉ chars p → String_split sep p = [p].
Proof.
  induction p as [|c p IH]; simpl; [done|].
  rewrite elem_of_cons. intros Hn.
  rewrite decide_False by naive_solver.
  rewrite IH by naive_solver. done.
Qed.

(** Splitting undoes joining, for pieces without the separator. *)
Lemma String_split_concat sep l :
  l ≠ [] →
  Forall (λ piece, sep ∉ chars piece) l →
  String_split sep (String.concat (String sep "") l) = l.
Proof.
  intros Hne Hl. induction Hl as [|p l Hp Hl IH]; [done|].
  destruct l as [|q l].
  { simpl. by apply String_split_whole. }
  change (String.concat (String sep "") (p :: q :: l))
    with (p +:+ String sep (String.concat (String sep "") (q :: l))).
  rewrite String_split_app by done. by rewrite IH.
Qed.

Lemma filter_all {A} (P : A → Prop) `{!∀ x, Decision (P x)} (l : list A) :
  Forall P l → filter P l = l.
Proof.
  induction 1 as [|x l Hx Hl IH]; [done|].
  by rewrite filter_cons_True, IH.
Qed.

Lemma String_append_assoc (a b c : string) : (a +:+ b) +:+ c = a +:+ (b +:+ c).
Proof.
  induction a as [|x a IH]; [done|].
  change (String x ((a +:+ b) +:+ c) = String x (a +:+ (b +:+ c))).
  by rewrite IH.
Qed.

Lemma String_prefix_app p s : String.prefix p (p +:+ s) = true.
Proof.
  induction p as [|c p IH]; simpl; [by destruct s|].
  by destruct (ascii_dec c c).
Qed.

Lemma find_first {A} (f : A → bool) before hit after :
  Forall (λ a, f a = false) before →
  f hit = true →
  List.find f (before ++ hit :: after) = Some hit.
Proof.
  intros Hb Hh. induction Hb as [|a before Ha Hb IH]; simpl.
  - by rewrite Hh.
  - by rewrite Ha.
Qed.

Lemma find_none {A} (f : A → bool) l :
  Forall (λ a, f a = false) l → List.find f l = None.
Proof. induction 1 as [|a l Ha Hl IH]; simpl; [done|]. by rewrite Ha. Qed.

(** ** [uniqLower] *)

Lemma uniqLower_fold arr seen out :
  seen = list_to_set out →
  NoDup out →
  let r := fold_left uniqLower_step arr (seen, out) in
  r.1 = list_to_set r.2
  ∧ NoDup r.2
  ∧ (∀ v, v ∈ r.2 ↔ v ∈ out ∨ ∃ x, x ∈ arr ∧ v = toLowerCase x)
  ∧ out `prefix_of` r.2.
Proof.
  revert seen out. induction arr as [|x arr IH]; intros seen out Hseen Hout.
  { simpl. split_and!; [done|done| |done].
    intros v. split; [auto|]. intros [?|(x & []%elem_of_nil & _)]. done. }
  simpl fold_left.
  destruct (decide (toLowerCase x ∈ seen)) as [Hin|Hnin].
  - replace (uniqLower_step (seen, out) x) with (seen, out)
      by (unfold uniqLower_step; simpl; by rewrite decide_True).
    destruct (IH seen out Hseen Hout) as (H1 & H2 & H3 & H4).
    cbv zeta. split_and!; [done|done| |done].
    intros v. rewrite H3. split.
    + intros [?|(y & Hy & ->)]; [by left|]. right. exists y. split; [|done].
      by right.
    + intros [?|(y & [-> |Hy]%elem_of_cons & ->)]; [by left| |].
      * left. rewrite Hseen in Hin. by apply elem_of_list_to_set in Hin.
      * right. by exists y.
  - assert (toLowerCase x ∉ out) as Hnout.
    { rewrite Hseen in Hnin. by rewrite elem_of_list_to_set in Hnin. }
    replace (uniqLower_step (seen, out) x)
      with ({[toLowerCase x]} ∪ seen, out ++ [toLowerCase x])
      by (unfold uniqLower_step; simpl; by rewrite decide_False).
    destruct (IH ({[toLowerCase x]} ∪ seen) (out ++ [toLowerCase x]))
      as (H1 & H2 & H3 & H4).
    { rewrite Hseen, list_to_set_app_L. simpl. set_solver. }
    { apply NoDup_app. split_and!; [done| |apply NoDup_singleton].
      intros v Hv ->%list_elem_of_singleton. done. }
    cbv zeta. split_and!; [done|done| |].
    + intros v. rewrite H3, elem_of_app, list_elem_of_singleton. split.
      * intros [[?| ->]|(y & Hy & ->)]; [by left| |].
        -- right. exists x. split; [left|done].
        -- right. exists y. split; [by right|done].
      * intros [?|(y & [-> |Hy]%elem_of_cons & ->)]; [by left;left| |].
        -- left. by right.
        -- right. by exists y.
    + etrans; [|exact H4]. by apply prefix_app_r.
Qed.

Lemma uniqLower_props arr :
  NoDup (uniqLower arr)
  ∧ Forall (λ v, has_upper v = false) (uniqLower arr)
  ∧ ∀ v, v ∈ uniqLower arr ↔ ∃ x, x ∈ arr ∧ v = toLowerCase x.
Proof.
  destruct (uniqLower_fold arr ∅ []) as (_ & Hnd & Hin & _);
    [done|apply NoDup_nil_2|].
  cbv zeta in *. fold (uniqLower arr) in *.
  assert (∀ v, v ∈ uniqLower arr ↔ ∃ x, x ∈ arr ∧ v = toLowerCase x) as Hv.
  { intros v. rewrite Hin, elem_of_nil. naive_solver. }
  split_and!; [done| |done].
  apply Forall_forall. intros v (x & _ & ->)%Hv.
  apply has_upper_toLowerCase.
Qed.

(** X1.  The result of [uniqLower] has no duplicates and no uppercase
    letter, and it holds exactly the lowercased elements of the input. *)
Theorem uniqLower_spec (arr : list string) :
  NoDup (uniqLower arr)
  ∧ Forall (λ v, has_upper v = false) (uniqLower arr)
  ∧ ∀ v, v ∈ uniqLower arr ↔ ∃ x, x ∈ arr ∧ v = toLowerCase x.
Proof. apply uniqLower_props. Qed.

Lemma uniqLower_fold_fixed arr seen out :
  seen = list_to_set out →
  NoDup (out ++ arr) →
  Forall (λ v, has_upper v = false) arr →
  (fold_left uniqLower_step arr (seen, out)).2 = out ++ arr.
Proof.
  revert seen out. induction arr as [|x arr IH]; intros seen out Hseen Hnd Hlow.
  { simpl. by rewrite app_nil_r. }
  apply Forall_cons in Hlow as [Hx Hlow]. simpl fold_left.
  assert (x ∉ out) as Hnout.
  { apply NoDup_app in Hnd as (_ & Hd & _). intros Hin.
    apply (Hd x Hin). left. }
  replace (uniqLower_step (seen, out) x) with ({[x]} ∪ seen, out ++ [x]).
  - rewrite IH; [by rewrite <-app_assoc| |by rewrite <-app_assoc|done].
    rewrite Hseen, list_to_set_app_L. simpl. set_solver.
  - unfold uniqLower_step. simpl. rewrite (toLowerCase_fixed x Hx).
    rewrite decide_False; [done|].
    by rewrite Hseen, elem_of_list_to_set.
Qed.

(** X2.  A list of distinct lowercase strings is a fixed point of
    [uniqLower], and so is every result of [uniqLower]. *)
Theorem uniqLower_fixed (arr : list string) :
  (NoDup arr → Forall (λ v, has_upper v = false) arr → uniqLower arr = arr)
  ∧ uniqLower (uniqLower arr) = uniqLower arr.
Proof.
  assert (∀ l, NoDup l → Forall (λ v, has_upper v = false) l → uniqLower l = l)
    as Hfix.
  { intros l Hnd Hlow. unfold uniqLower.
    by rewrite (uniqLower_fold_fixed l ∅ []). }
  split; [apply Hfix|].
  destruct (uniqLower_fold arr ∅ []) as (_ & Hnd & Hin & _);
    [done|apply NoDup_nil_2|].
  cbv zeta in *. fold (uniqLower arr) in *.
  apply Hfix; [done|]. apply Forall_forall. intros v Hv.
  apply Hin in Hv as [[]%elem_of_nil|(x & _ & ->)].
  apply has_upper_toLowerCase.
Qed.

(** X3.  [getArg] looks at the first argument that starts with
    [--name=].  Without one it returns the default.  With one, for a name
    without [=], it returns what follows [--name=] up to the next [=], so
    a value is cut at its first [=]. *)
Theorem getArg_first_match (argv : list string) (name : string)
    (def : option string) :
  (Forall (λ a, String.prefix ("--" +:+ name +:+ "=") a = false) argv →
   getArg argv name def = def)
  ∧ (∀ before v after,
       "="%char ∉ chars name →
       Forall (λ a, String.prefix ("--" +:+ name +:+ "=") a = false) before →
       argv = before ++ ("--" +:+ name +:+ "=" +:+ v) :: after →
       getArg argv name def = Some (String_before "=" v)).
Proof.
  split.
  - intros Hnone. unfold getArg. by rewrite find_none.
  - intros before v after Hname Hbefore ->. unfold getArg.
    rewrite (find_first _ before _ after Hbefore).
    + change ("--" +:+ name +:+ "=" +:+ v)
        with (("--" +:+ name) +:+ String "=" v).
      rewrite String_split_app.
      * simpl. apply String_split_before.
      * simpl. rewrite !elem_of_cons. intros [?|[?|?]]; done.
    + change ("--" +:+ name +:+ "=" +:+ v)
        with ("--" +:+ (name +:+ "=" +:+ v)).
      replace ("--" +:+ (name +:+ "=" +:+ v))
        with (("--" +:+ name +:+ "=") +:+ v); [apply String_prefix_app|].
      by rewrite !String_append_assoc.
Qed.

Lemma parseAddressList_elems str :
  Forall (λ a, clean a ∧ ","%char ∉ chars a) (parseAddressList str).
Proof.
  unfold parseAddressList, filter_truthy.
  apply Forall_forall. intros a [Hne Ha]%list_elem_of_filter.
  apply list_elem_of_fmap in Ha as (piece & -> & Hpiece).
  split; [split; [done|apply trim_idem]|].
  intros Hc%trim_incl.
  pose proof (String_split_pieces "," (str_or str "")) as Hall.
  rewrite Forall_forall in Hall. by apply (Hall piece).
Qed.

(** X4.  Every address that [parseAddressList] returns is non-empty,
    trimmed and free of commas; a missing or empty argument gives no
    address. *)
Theorem parseAddressList_clean (str : option string) :
  Forall (λ a, clean a ∧ ","%char ∉ chars a) (parseAddressList str)
  ∧ (str = None ∨ str = Some "" → parseAddressList str = []).
Proof.
  split; [apply parseAddressList_elems|]. by intros [-> | ->].
Qed.

(** X5.  Reading back a comma-separated list: for addresses that are
    non-empty, trimmed and free of commas, [parseAddressList] returns the
    list that was joined. *)
Theorem parseAddressList_concat (l : list string) :
  Forall (λ a, clean a ∧ ","%char ∉ chars a) l →
  parseAddressList (Some (String.concat "," l)) = l.
Proof.
  intros Hl. unfold parseAddressList.
  assert (str_or (Some (String.concat "," l)) "" = String.concat "," l) as ->.
  { unfold str_or. by case_decide. }
  destruct l as [|a l]; [done|].
  rewrite String_split_concat; [|done|by eapply Forall_impl; [exact Hl|naive_solver]].
  assert (map trim (a :: l) = a :: l) as ->.
  { rewrite <-(map_id (a :: l)) at 2. apply map_ext_Forall.
    eapply Forall_impl; [exact Hl|]. by intros s [[_ ?] _]. }
  unfold filter_truthy. apply filter_all.
  eapply Forall_impl; [exact Hl|]. by intros s [[? _] _].
Qed.

Lemma loadWalletsFromFile_elems readFileSync file :
  NoDup (loadWalletsFromFile readFileSync file)
  ∧ Forall (λ v, clean v ∧ has_upper v = false)
      (loadWalletsFromFile readFileSync file).
Proof.
  unfold loadWalletsFromFile.
  destruct (readFileSync file) as [raw|]; [|by repeat constructor].
  destruct (uniqLower_props (filter_truthy (map trim (split_lines raw))))
    as (Hnd & Hlow & Hin).
  split; [done|].
  apply Forall_forall. intros v Hv. split.
  - apply Hin in Hv as (x & [Hne Hx]%list_elem_of_filter & ->).
    apply clean_toLowerCase. split; [done|].
    apply list_elem_of_fmap in Hx as (piece & -> & _). apply trim_idem.
  - rewrite Forall_forall in Hlow. by apply Hlow.
Qed.

(** X6.  The wallets read from the file are distinct, non-empty, trimmed
    and lowercase; when the file cannot be read there are none. *)
Theorem loadWalletsFromFile_clean (readFileSync : string → option string)
    (file : string) :
  NoDup (loadWalletsFromFile readFileSync file)
  ∧ Forall (λ v, clean v ∧ has_upper v = false)
      (loadWalletsFromFile readFileSync file)
  ∧ (readFileSync file = None → loadWalletsFromFile readFileSync file = []).
Proof.
  destruct (loadWalletsFromFile_elems readFileSync file) as [Hnd Hall].
  split_and!; [done|done|].
  unfold loadWalletsFromFile. by intros ->.
Qed.

(** ** [fetchAll] against an arbitrary endpoint *)

Lemma pages_app client query varsBase from a b :
  pages client query varsBase from (a + b)
  = pages client query varsBase from a
    ++ pages client query varsBase (from + a * first) b.
Proof.
  revert from. induction a as [|a IH]; intros from.
  { simpl. by rewrite Nat.add_0_r. }
  change (S a + b) with (S (a + b)). rewrite !pages_S, IH.
  rewrite <-app_comm_cons. do 3 f_equal. lia.
Qed.

Lemma pages_length client query varsBase from n :
  length (pages client query varsBase from n) = n.
Proof. unfold pages. by rewrite length_map, length_seq. Qed.

Section AnyEndpoint.
Context {World : Type}.
Variable request : string → Query → Vars → World → Response * World.
Variables (client : GraphQLClient) (query : Query) (varsBase : VarsBase).

(** The requests of the loop are consecutive pages, one per turn. *)
Lemma fetchAll_loop_pages fuel skip out w r w' t :
  fetchAll_loop request fuel client query varsBase skip out w = (r, w', t) →
  t = pages client query varsBase skip (length t)
  ∧ (length t ≤ fuel)%nat
  ∧ (r = Pending → length t = fuel)
  ∧ (r ≠ Pending → (1 ≤ length t)%nat).
Proof.
  revert skip out w r w' t.
  induction fuel as [|fuel IH]; intros skip out w r w' t; simpl.
  { intros [= <- _ <-]. split_and!; done. }
  unfold bind, client_request.
  destruct (request _ _ _ _) as [[e|swaps] w1].
  { intros [= <- _ <-]. simpl. split_and!; [|lia|done|lia].
    by rewrite pages_S. }
  case_decide.
  - unfold ret. intros [= <- _ <-]. simpl. split_and!; [|lia|done|lia].
    by rewrite pages_S.
  - destruct (fetchAll_loop _ _ _ _ _ _ _ _) as [[r2 w2] t2] eqn:Hrec.
    intros [= <- _ <-]. apply IH in Hrec as (Ht & Hlen & Hp & Hnp).
    simpl. rewrite pages_S, <-Ht. split_and!; [done|lia|..].
    + intros Hr. by rewrite Hp.
    + lia.
Qed.

Variable script : nat → Response.
Hypothesis Hscript : scripted request client query varsBase script.

(** Full pages are read one after the other. *)
Lemma fetchAll_loop_full k j fuel out w :
  (∀ i, i < k → full_page (script (j + i))) →
  ∃ w1,
    fetchAll_loop request (k + fuel) client query varsBase
      (j * first) out w
    = let '(r, w2, t) :=
        fetchAll_loop request fuel client query varsBase
          ((j + k) * first) (out ++ rows_from script j k) w1 in
      (r, w2, pages client query varsBase (j * first) k ++ t).
Proof.
  revert j out w. induction k as [|k IH]; intros j out w Hfull.
  { exists w. simpl. rewrite Nat.add_0_r. unfold rows_from. simpl.
    rewrite app_nil_r. by destruct (fetchAll_loop _ _ _ _ _ _ _ _) as [[??]?]. }
  cbn [Nat.add fetchAll_loop]. unfold bind, client_request.
  pose proof (Hscript j w) as Hj.
  pose proof (Hfull 0 ltac:(lia)) as Hfull0. rewrite Nat.add_0_r in Hfull0.
  destruct (request (url client) query (mkVars varsBase first (j * first)) w)
    as [resp w1].
  simpl in Hj. subst resp.
  destruct (script j) as [e|swaps] eqn:Hsj; [done|]. simpl in Hfull0.
  rewrite decide_False by lia.
  destruct (IH (S j) (out ++ default [] swaps) w1) as [w2 Hrec].
  { intros i Hi. replace (S j + i) with (j + S i) by lia. apply Hfull. lia. }
  exists w2. replace (j * first + first) with (S j * first) by lia.
  rewrite Hrec. replace (S j + k) with (j + S k) by lia.
  assert (rows_from script j (S k)
          = default [] swaps ++ rows_from script (S j) k) as ->.
  { unfold rows_from. simpl. by rewrite Hsj. }
  rewrite <-app_assoc.
  rewrite pages_S. replace (j * first + first) with (S j * first) by lia.
  clear Hrec.
  destruct (fetchAll_loop request fuel _ _ _ _ _ _) as [[r3 w3] t3].
  reflexivity.
Qed.

End AnyEndpoint.

Section Scripted.
Context {World : Type}.
Variable request : string → Query → Vars → World → Response * World.
Variables (client : GraphQLClient) (query : Query) (varsBase : VarsBase).
Variable script : nat → Response.
Hypothesis Hscript : scripted request client query varsBase script.

Lemma fetchAll_loop_short fuel j out w :
  short_page (script j) →
  ∃ w',
    fetchAll_loop request (S fuel) client query varsBase (j * first) out w
    = (Returned (out ++ rows_of (script j)), w',
       pages client query varsBase (j * first) 1).
Proof.
  intros Hshort. cbn [fetchAll_loop]. unfold bind, client_request.
  pose proof (Hscript j w) as Hj.
  destruct (request (url client) query (mkVars varsBase first (j * first)) w)
    as [resp w1].
  simpl in Hj. subst resp.
  destruct (script j) as [e|swaps]; [done|]. simpl in Hshort.
  rewrite decide_True by done. exists w1. by rewrite pages_S.
Qed.

Lemma fetchAll_loop_reject fuel j out w e :
  script j = Rejected e →
  ∃ w',
    fetchAll_loop request (S fuel) client query varsBase (j * first) out w
    = (Thrown e, w', pages client query varsBase (j * first) 1).
Proof.
  intros Hrej. cbn [fetchAll_loop]. unfold bind, client_request.
  pose proof (Hscript j w) as Hj.
  destruct (request (url client) query (mkVars varsBase first (j * first)) w)
    as [resp w1].
  simpl in Hj. subst resp. rewrite Hrej. exists w1. by rewrite pages_S.
Qed.

End Scripted.

(** X7.  Whatever the endpoint answers, [fetchAll] asks for the pages at
    the offsets 0, 1000, 2000, ... in this order and for nothing else; it
    has asked at least once when it returns or throws, and it has used
    every turn of the loop when it is still running. *)
Theorem fetchAll_request_pages {World : Type}
    (request : string → Query → Vars → World → Response * World)
    (fuel : nat) (client : GraphQLClient) (query : Query)
    (varsBase : VarsBase) (w : World) r w' t :
  fetchAll request fuel client query varsBase w = (r, w', t) →
  t = pages client query varsBase 0 (length t)
  ∧ (length t ≤ fuel)%nat
  ∧ (r = Pending → length t = fuel)
  ∧ (r ≠ Pending → (1 ≤ length t)%nat).
Proof. apply fetchAll_loop_pages. Qed.

(** X8.  [fetchAll] returns the rows of all pages up to the first one
    with fewer than 1000 rows, that page included.  A response without a
    [swaps] member counts as a page without rows. *)
Theorem fetchAll_returns_pages {World : Type}
    (request : string → Query → Vars → World → Response * World)
    (client : GraphQLClient) (query : Query) (varsBase : VarsBase)
    (script : nat → Response) (k fuel : nat) (w : World) :
  scripted request client query varsBase script →
  (∀ i, i < k → full_page (script i)) →
  short_page (script k) →
  k < fuel →
  ∃ w',
    fetchAll request fuel client query varsBase w
    = (Returned (rows_from script 0 (S k)), w',
       pages client query varsBase 0 (S k)).
Proof.
  intros Hscript Hfull Hshort Hfuel.
  replace fuel with (k + S (fuel - S k)) by lia.
  destruct (fetchAll_loop_full request client query varsBase script Hscript
              k 0 (S (fuel - S k)) [] w) as [w1 Hrun]; [done|].
  destruct (fetchAll_loop_short request client query varsBase script Hscript
              (fuel - S k) k (rows_from script 0 k) w1 Hshort) as [w2 Hend].
  exists w2. unfold fetchAll.
  rewrite Nat.mul_0_l, Nat.add_0_l, app_nil_l in Hrun. rewrite Hrun, Hend.
  replace (S k) with (k + 1) by lia. rewrite pages_app. simpl.
  do 2 f_equal. unfold rows_from.
  by rewrite seq_app, map_app, concat_app; simpl; rewrite app_nil_r.
Qed.

(** X9.  A rejected request aborts [fetchAll]: the error of the request
    is thrown, the rows read so far are dropped, no further request is
    issued. *)
Theorem fetchAll_rejection {World : Type}
    (request : string → Query → Vars → World → Response * World)
    (client : GraphQLClient) (query : Query) (varsBase : VarsBase)
    (script : nat → Response) (k fuel : nat) (e : JsError) (w : World) :
  scripted request client query varsBase script →
  (∀ i, i < k → full_page (script i)) →
  script k = Rejected e →
  k < fuel →
  ∃ w',
    fetchAll request fuel client query varsBase w
    = (Thrown e, w', pages client query varsBase 0 (S k)).
Proof.
  intros Hscript Hfull Hrej Hfuel.
  replace fuel with (k + S (fuel - S k)) by lia.
  destruct (fetchAll_loop_full request client query varsBase script Hscript
              k 0 (S (fuel - S k)) [] w) as [w1 Hrun]; [done|].
  destruct (fetchAll_loop_reject request client query varsBase script Hscript
              (fuel - S k) k (rows_from script 0 k) w1 e Hrej) as [w2 Hend].
  exists w2. unfold fetchAll.
  rewrite Nat.mul_0_l, Nat.add_0_l, app_nil_l in Hrun. rewrite Hrun, Hend.
  replace (S k) with (k + 1) by lia. by rewrite pages_app.
Qed.

(** X10.  Against an endpoint that answers every request with 1000 rows
    or more, [fetchAll] never returns: however many turns the loop is
    given, it has used them all on requests and is still running. *)
Theorem fetchAll_endless {World : Type}
    (request : string → Query → Vars → World → Response * World)
    (client : GraphQLClient) (query : Query) (varsBase : VarsBase)
    (script : nat → Response) (fuel : nat) (w : World) :
  scripted request client query varsBase script →
  (∀ i, full_page (script i)) →
  ∃ w',
    fetchAll request fuel client query varsBase w
    = (Pending, w', pages client query varsBase 0 fuel).
Proof.
  intros Hscript Hfull.
  destruct (fetchAll_loop_full request client query varsBase script Hscript
              fuel 0 0 [] w) as [w1 Hrun]; [done|].
  exists w1. unfold fetchAll.
  rewrite Nat.add_0_r, Nat.mul_0_l in Hrun. rewrite Hrun.
  simpl. by rewrite app_nil_r.
Qed.

(** ** The endpoints and the fallback, for an arbitrary network *)

Lemma trim_start_nil l :
  trim_start l = [] → Forall (λ c, is_space c = true) l.
Proof.
  induction l as [|c l IH]; simpl; [done|].
  destruct (is_space c) eqn:Hc; [|done]. intros Hl. constructor; auto.
Qed.

Lemma trim_empty_blank s : trim s = "" → blank s.
Proof.
  rewrite trim_as_chars. unfold trim_chars, blank. intros Ht.
  assert (trim_start (rev (trim_start (chars s))) = []) as Hrev.
  { destruct (rev (trim_start (rev (trim_start (chars s))))) eqn:E; [|done].
    apply (f_equal (@rev _)) in E. by rewrite rev_involutive in E. }
  destruct (trim_start (chars s)) as [|h t] eqn:Hl.
  { by apply trim_start_nil. }
  apply trim_start_head in Hl. simpl in Hrev.
  destruct (trim_start_snoc (rev t) h Hl) as [m' Hm].
  rewrite Hm in Hrev. by destruct m'.
Qed.

Lemma bind_inv {World A B} (m : World → Outcome A * World * list Event)
    (k : A → World → Outcome B * World * list Event) w out w' t :
  bind m k w = (out, w', t) →
  (∃ a w1 t1 t2,
     m w = (Returned a, w1, t1) ∧ k a w1 = (out, w', t2) ∧ t = t1 ++ t2)
  ∨ (∃ e, m w = (Thrown e, w', t) ∧ out = Thrown e)
  ∨ (m w = (Pending, w', t) ∧ out = Pending).
Proof.
  unfold bind. destruct (m w) as [[[a|e|] w1] t1].
  - destruct (k a w1) as [[r w2] t2] eqn:Hk. intros [= <- <- <-].
    left. by eexists _, _, _, _.
  - intros [= <- <- <-]. right; left. by eexists.
  - intros [= <- <- <-]. by right; right.
Qed.

Section AnyNetwork.
Context {World : Type}.
Variable request : string → Query → Vars → World → Response * World.
Variables (fuel : nat) (addresses : list string) (start end_ : Z).

Lemma fetchAll_events client q vb w r w' t :
  fetchAll request fuel client q vb w = (r, w', t) →
  Forall (λ ev, ev_url ev = url client) t ∧ (r ≠ Pending → t ≠ []).
Proof.
  intros Hrun. split.
  - by eapply fetchAll_loop_events.
  - apply fetchAll_loop_pages in Hrun as (_ & _ & _ & Hlen).
    intros Hr ->. specialize (Hlen Hr). simpl in Hlen. lia.
Qed.

(** One endpoint: its requests go to it, there is one at least unless
    the attempt is still running, and a result names it. *)
Lemma fetch_endpoint_outcome u w out w' t :
  fetch_endpoint request fuel u addresses start end_ w = (out, w', t) →
  Forall (λ ev, ev_url ev = u) t
  ∧ (out ≠ Pending → ∃ ev, last t = Some ev)
  ∧ (∀ r, out = Returned r → endpoint r = u).
Proof.
  assert (∀ (l : list Event), l ≠ [] → ∃ ev, last l = Some ev) as Hlast.
  { intros l Hl. destruct (last l) eqn:E; [by eexists|].
    by apply last_None in E. }
  unfold fetch_endpoint. intros H.
  apply bind_inv in H
    as [(o & w1 & t1 & t2 & H1 & H & ->)|[(e & H1 & ->)|[H1 ->]]].
  2:{ apply fetchAll_events in H1 as [Hev Hne].
      split_and!; [done| |done]. intros _. by apply Hlast, Hne. }
  2:{ apply fetchAll_events in H1 as [Hev Hne]. by split_and!. }
  apply fetchAll_events in H1 as [Hev1 Hne1].
  apply bind_inv in H
    as [(s & w2 & t3 & t4 & H2 & H & ->)|[(e & H2 & ->)|[H2 ->]]].
  2:{ apply fetchAll_events in H2 as [Hev Hne].
      split_and!; [by apply Forall_app| |done].
      intros _. apply Hlast. intros [_ Ht]%app_eq_nil. by apply Hne. }
  2:{ apply fetchAll_events in H2 as [Hev Hne].
      split_and!; [by apply Forall_app|done|done]. }
  apply fetchAll_events in H2 as [Hev2 Hne2].
  apply bind_inv in H
    as [(r & w3 & t5 & t6 & H3 & H & ->)|[(e & H3 & ->)|[H3 ->]]].
  2:{ apply fetchAll_events in H3 as [Hev Hne].
      split_and!; [by rewrite !Forall_app| |done].
      intros _. apply Hlast.
      intros [_ [_ Ht]%app_eq_nil]%app_eq_nil. by apply Hne. }
  2:{ apply fetchAll_events in H3 as [Hev Hne].
      split_and!; [by rewrite !Forall_app|done|done]. }
  apply fetchAll_events in H3 as [Hev3 Hne3].
  unfold ret in H. injection H as <- <- <-. rewrite app_nil_r.
  split_and!; [by rewrite !Forall_app| |by intros ? [= <-]].
  intros _. apply Hlast.
  intros [_ [_ Ht]%app_eq_nil]%app_eq_nil. by apply Hne3.
Qed.

Lemma fallback_loop_outcome urls lastErr w out w' t :
  fallback_loop request fuel urls addresses start end_ lastErr w
  = (out, w', t) →
  Forall (λ ev, ev_url ev ∈ urls) t
  ∧ (∀ r, out = Returned r →
       endpoint r ∈ urls
       ∧ ∃ ev, last t = Some ev ∧ ev_url ev = endpoint r)
  ∧ (∀ e, out = Thrown e →
       (∃ lastErr', e = all_failed lastErr'
                    ∧ (urls = [] → lastErr' = lastErr)
                    ∧ (urls ≠ [] → is_Some lastErr'))
       ∧ ∀ u, u ∈ urls → ∃ ev, ev ∈ t ∧ ev_url ev = u).
Proof.
  revert lastErr w out w' t.
  induction urls as [|u urls IH]; intros lastErr w out w' t; simpl.
  { unfold throw. intros [= <- _ <-]. split_and!; [done|done|].
    intros e [= <-]. split; [by exists lastErr|].
    by intros u ?%elem_of_nil. }
  unfold try_catch.
  destruct (fetch_endpoint request fuel u addresses start end_ w)
    as [[[r|e|] w1] t1] eqn:Hu;
    apply fetch_endpoint_outcome in Hu as (Hev & Hlast & Hend).
  - intros [= <- <- <-]. split_and!.
    + eapply Forall_impl; [exact Hev|]. intros ev <-. left.
    + intros r' [= <-]. rewrite (Hend r eq_refl). split; [left|].
      destruct Hlast as [ev Hl]; [done|]. exists ev. split; [done|].
      rewrite Forall_forall in Hev. apply Hev.
      by apply last_Some_elem_of.
    + done.
  - destruct (fallback_loop request fuel urls addresses start end_
                (Some e) w1) as [[r2 w2] t2] eqn:Hrest.
    intros [= <- <- <-]. apply IH in Hrest as (Hev2 & Hret & Hthr).
    split_and!.
    + apply Forall_app. split.
      * eapply Forall_impl; [exact Hev|]. intros ev <-. left.
      * eapply Forall_impl; [exact Hev2|]. intros ev ?. by right.
    + intros r -> . destruct (Hret r eq_refl) as [Hin (ev & Hl & Hurl)].
      split; [by right|]. exists ev. split; [|done].
      rewrite last_app, Hl. done.
    + intros e2 ->.
      destruct (Hthr e2 eq_refl) as [(le & -> & Hnil & Hcons) Hall].
      split.
      * exists le. split_and!; [done|done|]. intros _.
        destruct urls; [rewrite Hnil; eauto|by apply Hcons].
      * intros u' [->|Hu']%elem_of_cons.
        -- destruct Hlast as [ev Hl]; [done|]. exists ev.
           apply last_Some_elem_of in Hl. split.
           ++ apply elem_of_app. by left.
           ++ rewrite Forall_forall in Hev. by apply Hev.
        -- destruct (Hall u' Hu') as (ev & Hin & Hurl). exists ev.
           split; [|done]. apply elem_of_app. by right.
  - intros [= <- <- <-]. split_and!; [|done|done].
    eapply Forall_impl; [exact Hev|]. intros ev <-. left.
Qed.

End AnyNetwork.

Lemma DEFAULT_URLS_unset : DEFAULT_URLS None = [url2; url3].
Proof. reflexivity. Qed.

Lemma DEFAULT_URLS_set s :
  DEFAULT_URLS (Some s)
  = if decide (trim s = "") then [url2; url3] else [trim s; url2; url3].
Proof. unfold DEFAULT_URLS. simpl. by case_decide. Qed.

(** X11.  The candidate endpoints are the two built-in ones, preceded by
    the trimmed value of [SUBGRAPH_URL] when that is set and not blank. *)
Theorem DEFAULT_URLS_env (s : string) :
  (blank s → DEFAULT_URLS (Some s) = DEFAULT_URLS None)
  ∧ (¬ blank s → DEFAULT_URLS (Some s) = trim s :: DEFAULT_URLS None)
  ∧ DEFAULT_URLS None = [url2; url3].
Proof.
  rewrite DEFAULT_URLS_set, DEFAULT_URLS_unset. split_and!; [| |done].
  - intros Hb. by rewrite (trim_blank s Hb).
  - intros Hnb. rewrite decide_False; [done|].
    intros Ht. by apply Hnb, trim_empty_blank.
Qed.

(** X12.  Whatever the network does, [fetchWithFallbacks] sends
    requests to the candidate endpoints only.  A result names a
    candidate, the one the last request went to.  The only error it
    throws is the all-endpoints-failed error, built from the error of an
    endpoint and thrown after every candidate has been asked. *)
Theorem fetchWithFallbacks_outcome {World : Type}
    (request : string → Query → Vars → World → Response * World)
    (SUBGRAPH_URL : option string) (fuel : nat)
    (addresses : list string) (start end_ : Z) (w : World) out w' t :
  fetchWithFallbacks request SUBGRAPH_URL fuel addresses start end_ w
  = (out, w', t) →
  Forall (λ ev, ev_url ev ∈ DEFAULT_URLS SUBGRAPH_URL) t
  ∧ (∀ r, out = Returned r →
       endpoint r ∈ DEFAULT_URLS SUBGRAPH_URL
       ∧ ∃ ev, last t = Some ev ∧ ev_url ev = endpoint r)
  ∧ (∀ e, out = Thrown e →
       (∃ e', e = all_failed (Some e'))
       ∧ ∀ u, u ∈ DEFAULT_URLS SUBGRAPH_URL → ∃ ev, ev ∈ t ∧ ev_url ev = u).
Proof.
  unfold fetchWithFallbacks. intros (Hev & Hret & Hthr)%fallback_loop_outcome.
  split_and!; [done|done|].
  intros e He. destruct (Hthr e He) as [(le & -> & _ & Hsome) Hall].
  split; [|done].
  destruct Hsome as [e' ->]; [|by exists e'].
  destruct SUBGRAPH_URL as [s|]; [|done].
  rewrite DEFAULT_URLS_set. by case_decide.
Qed.

(** ** More on [aggregate] *)

Lemma keep_first_fold_first l acc :
  ∃ kept,
    fold_left keep_first l acc = acc ++ kept
    ∧ kept `sublist_of` l
    ∧ ∀ s, s ∈ kept →
        swap_id s ∉ map swap_id acc
        ∧ ∃ l1 l2, l = l1 ++ s :: l2 ∧ swap_id s ∉ map swap_id l1.
Proof.
  revert acc. induction l as [|x l IH]; intros acc; simpl.
  { exists []. rewrite app_nil_r. split_and!; [done|done|].
    by intros s ?%elem_of_nil. }
  unfold keep_first at 2. case_bool_decide as Hx.
  - destruct (IH acc) as (kept & -> & Hsub & Hkept).
    exists kept. split_and!; [done|by apply sublist_cons|].
    intros s Hs. destruct (Hkept s Hs) as (Hacc & l1 & l2 & -> & Hl1).
    split; [done|]. exists (x :: l1), l2. split; [done|].
    simpl. rewrite not_elem_of_cons. split; [|done].
    intros Heq. by rewrite Heq in Hacc.
  - destruct (IH (acc ++ [x])) as (kept & -> & Hsub & Hkept).
    exists (x :: kept). rewrite <-app_assoc. split_and!; [done| |].
    { by apply sublist_skip. }
    intros s [->|Hs]%elem_of_cons.
    { split; [done|]. exists [], l. split; [done|]. apply not_elem_of_nil. }
    destruct (Hkept s Hs) as (Hacc & l1 & l2 & -> & Hl1).
    rewrite map_app, not_elem_of_app in Hacc. destruct Hacc as [Hacc Hsx].
    split; [done|]. exists (x :: l1), l2. split; [done|].
    simpl. rewrite not_elem_of_cons. split; [|done].
    simpl in Hsx. rewrite list_elem_of_singleton in Hsx. done.
Qed.




Lemma filter_length_le {A} (P : A → Prop) `{!∀ x, Decision (P x)} (l : list A) :
  (length (filter P l) ≤ length l)%nat.
Proof.
  induction l as [|x l IH]; simpl; [done|].
  rewrite filter_cons. case_decide; simpl; lia.
Qed.



Lemma mapM_cons_Some {A B} (f : A → option B) a l y ys :
  f a = Some y → mapM f l = Some ys → mapM f (a :: l) = Some (y :: ys).
Proof. intros Ha Hl. cbn. rewrite Ha. cbn. by rewrite Hl. Qed.

(** X13.  The merge keeps the records in the order of the three lists,
    origin list first, and of the records that share an identifier it
    keeps the first one, with the fields it has there. *)
Theorem merged_first_seen (O S R : list SwapRecord) :
  merged O S R `sublist_of` O ++ S ++ R
  ∧ ∀ s, s ∈ merged O S R →
      ∃ l1 l2, O ++ S ++ R = l1 ++ s :: l2 ∧ swap_id s ∉ map swap_id l1.
Proof.
  rewrite merged_keep_first.
  destruct (keep_first_fold_first (O ++ S ++ R) [])
    as (kept & -> & Hsub & Hkept).
  split; [done|]. intros s Hs. by destruct (Hkept s Hs) as [_ ?].
Qed.


(** X15.  [allCount] is the number of distinct identifiers in the three
    lists.  It is at most the total length of the lists, and no involved
    swap count exceeds it. *)
Theorem count_bounds (humanUSD : Qc → string)
    (addresses : list string) (O S R : list SwapRecord) :
  let r := aggregate humanUSD addresses O S R in
  allCount r = size (list_to_set (map swap_id (O ++ S ++ R)) : gset string)
  ∧ (allCount r ≤ length O + length S + length R)%nat
  ∧ ∀ a m, per r !! a = Some m → (swaps_involved m ≤ allCount r)%nat.
Proof.
  intros r. unfold r, aggregate. simpl. split_and!.
  - rewrite <-(length_map swap_id).
    rewrite <-(size_list_to_set (C := gset string)) by apply merged_NoDup.
    f_equal. apply set_eq. intros i.
    by rewrite !elem_of_list_to_set, merged_ids.
  - rewrite merged_keep_first.
    destruct (keep_first_fold_first (O ++ S ++ R) [])
      as (kept & -> & Hsub & _).
    apply sublist_length in Hsub. rewrite !length_app in Hsub. simpl. lia.
  - intros a m. rewrite lookup_fmap, accumulate_lookup.
    case_decide; [|done]. intros [= <-].
    destruct (metrics_fold a (merged O S R) (zero_metrics a))
      as (_ & _ & _ & H4 & _).
    simpl. rewrite H4. simpl. apply filter_length_le.
Qed.


(** X17.  Built from the result of [aggregate] for the same addresses,
    the console table never fails: it has one row per address, in the
    order of the addresses.  A row is marked as passed exactly when the
    threshold is a number not above the execution volume, which is the
    amount of the merged records that the address originated. *)
Theorem table_rows (humanUSD : Qc → string) (min : option Qc)
    (addresses : list string) (O S R : list SwapRecord) :
  ∃ rows,
    table min addresses (per (aggregate humanUSD addresses O S R))
    = Some rows
    ∧ map wallet rows = addresses
    ∧ ∀ row, row ∈ rows →
        vol_exec_usd row
        = sum_usd (filter (Executes (wallet row)) (merged O S R))
        ∧ (pass row = "✅" ↔ ∃ q, min = Some q ∧ (q ≤ vol_exec_usd row)%Qc).
Proof.
  unfold table.
  assert (∀ l : list string,
            (∀ a, a ∈ l → a ∈ addresses) →
            ∃ rows,
              mapM (λ a, x ← per (aggregate humanUSD addresses O S R) !! a;
                         Some (table_row min a x)) l = Some rows
              ∧ map wallet rows = l
              ∧ ∀ row, row ∈ rows →
                  ∃ a x, per (aggregate humanUSD addresses O S R) !! a
                         = Some x
                         ∧ row = table_row min a x) as Hrows.
  { induction l as [|a l IH]; intros Hl.
    { exists []. split_and!; [done|done|]. by intros row ?%elem_of_nil. }
    destruct IH as (rows & Hrows & Hw & Hx).
    { intros b Hb. apply Hl. by right. }
    destruct (proj2 (aggregate_keys humanUSD addresses O S R a)) as [x Hxa].
    { apply Hl. left. }
    exists (table_row min a x :: rows). split_and!.
    - apply mapM_cons_Some; [by rewrite Hxa|done].
    - simpl. by rewrite Hw.
    - intros row [->|Hrow]%elem_of_cons; [by exists a, x|]. by apply Hx. }
  destruct (Hrows addresses) as (rows & Hr & Hw & Hx); [done|].
  exists rows. split_and!; [done|done|].
  intros row Hrow. destruct (Hx row Hrow) as (a & x & Hlook & ->).
  rewrite aggregate_lookup in Hlook.
  case_decide; [|done]. injection Hlook as <-.
  destruct (metrics_fold a (merged O S R) (zero_metrics a))
    as (_ & _ & H3 & _).
  cbn [table_row wallet vol_exec_usd pass finalize volume_execution_usd].
  split.
  - rewrite H3. simpl. ring.
  - destruct min as [q|]; [|by split; [|intros (q & ? & _)]].
    case_decide as Hq.
    + split; [|done]. intros _. by exists q.
    + split; [done|]. intros (q' & [= <-] & Hq'). done.
Qed.

(** X18.  In [main] the requested addresses are distinct, non-empty,
    trimmed and lowercase, and there is none exactly when neither the
    command line nor the file supplies one.  Every supplied address, in
    whatever letter case, has an entry under its lowercase form, and that
    entry counts the merged records whose origin is this address up to
    letter case. *)
Theorem main_addresses_matching (argv : list string)
    (readFileSync : string → option string) (WALLET_FILE : option string) :
  let supplied :=
    parseAddressList (getArg argv "addresses" None)
    ++ loadWalletsFromFile readFileSync (str_or WALLET_FILE "account.txt") in
  let addresses := main_addresses argv readFileSync WALLET_FILE in
  NoDup addresses
  ∧ Forall (λ a, clean a ∧ has_upper a = false) addresses
  ∧ (addresses = [] ↔ supplied = [])
  ∧ ∀ x, x ∈ supplied →
      ∀ humanUSD O S R,
        ∃ m, per (aggregate humanUSD addresses O S R) !! toLowerCase x
             = Some m
             ∧ swaps_execution m
               = length (filter (Executes (toLowerCase x)) (merged O S R)).
Proof.
  intros supplied addresses.
  assert (Forall clean supplied) as Hclean.
  { apply Forall_app. split.
    - eapply Forall_impl; [apply parseAddressList_elems|]. by intros a [? _].
    - eapply Forall_impl; [apply loadWalletsFromFile_elems|].
      by intros a [? _]. }
  assert (addresses = uniqLower supplied) as Heq by reflexivity.
  clearbody supplied addresses. subst addresses.
  destruct (uniqLower_props supplied) as (Hnd & Hlow & Hin).
  split_and!; [done| | |].
  - apply Forall_forall. intros a Ha. split.
    + apply Hin in Ha as (x & Hx & ->). apply clean_toLowerCase.
      rewrite Forall_forall in Hclean. by apply Hclean.
    + rewrite Forall_forall in Hlow. by apply Hlow.
  - split.
    + intros Hnil. destruct supplied as [|x l]; [done|].
      assert (toLowerCase x ∈ uniqLower (x :: l)) as Hx.
      { apply Hin. exists x. split; [left|done]. }
      rewrite Hnil in Hx. by apply elem_of_nil in Hx.
    + by intros ->.
  - intros x Hx humanUSD O S R.
    rewrite aggregate_lookup, decide_True.
    + eexists. split; [done|].
      destruct (metrics_fold (toLowerCase x) (merged O S R)
                  (zero_metrics (toLowerCase x))) as (_ & H2 & _).
      simpl. by rewrite H2.
    + apply Hin. by exists x.
Qed.

(** * The properties at concrete inputs *)

Lemma dedup_idempotence_witness :
  ∃ m, per (aggregate usd_sample ["0xabc"] [id1; id3] [id2; id3] [])
         !! "0xabc" = Some m
       ∧ swaps_execution m = 2
       ∧ volume_execution_usd m = Qc_of_Z 6001
       ∧ swaps_involved m = 3
       ∧ volume_involved_usd m = Qc_of_Z 10001.
Proof.
  destruct (dedup_idempotence usd_sample ["0xabc"] [id1; id3] [id2; id3] [])
    as (_ & _ & _ & _ & H).
  destruct (H "0xabc") as (m & acc & Hm & _ & Hi & Hvi & He & Hve & _);
    [by left|].
  exists m. rewrite Hi, Hvi, He, Hve.
  split_and!; [done|reflexivity| |reflexivity|];
    by_evaluation.
Defined.

Lemma involvement_non_duplication_witness :
  ∃ m m' : Acc,
    accumulate ["0xabc"] [id1; id2] !! "0xabc" = Some m
    ∧ accumulate ["0xabc"] ([id1; id2] ++ [self_swap]) !! "0xabc" = Some m'
    ∧ swaps_involved m' = swaps_involved m + 1
    ∧ volume_involved_usd m'
      = (volume_involved_usd m + usd_of self_swap)%Qc.
Proof.
  apply (involvement_non_duplication ["0xabc"] [id1; id2] self_swap "0xabc").
  - by left.
  - vm_compute. lia.
Defined.

Lemma execution_exclusivity_witness :
  ∃ m m' : Acc,
    accumulate ["0xabc"] [id1; id2] !! "0xabc" = Some m
    ∧ accumulate ["0xabc"] ([id1; id2] ++ [self_swap]) !! "0xabc" = Some m'
    ∧ swaps_execution m' = swaps_execution m
    ∧ volume_execution_usd m' = volume_execution_usd m
    ∧ top_pairs m' = top_pairs m.
Proof.
  apply (execution_exclusivity ["0xabc"] [id1; id2] self_swap "0xabc").
  - by_evaluation.
  - by left.
Defined.

Lemma top_pair_selection_witness :
  ∃ m, per (aggregate usd_sample ["0xabc"] six_pairs [] six_pairs)
         !! "0xabc" = Some m
       ∧ top_pairs m
         = [ "A/USDT ($500.00)"; "B/USDT ($300.00)"; "C/USDT ($200.00)";
             "D/USDT ($100.00)"; "E/USDT ($50.00)" ].
Proof.
  destruct (per (aggregate usd_sample ["0xabc"] six_pairs [] six_pairs)
              !! "0xabc") as [m|] eqn:Hm; [|by vm_compute in Hm].
  exists m. split; [done|].
  destruct (top_pair_selection usd_sample ["0xabc"] six_pairs [] six_pairs
              "0xabc" m Hm) as [(acc & Hacc & Htop & _) Hex].
  rewrite Htop, <-finalize_top_pairs.
  rewrite (Hex "A/USDT" "B/USDT" "C/USDT" "D/USDT" "E/USDT" "F/USDT");
    [reflexivity|].
  vm_compute in Hacc. injection Hacc as <-.
  rewrite <-sort_desc_perm at 1.
  match goal with
  | |- sort_desc ?tp ≡ₚ ?l => assert (sort_desc tp = l) as ->; [|done]
  end.
  by_evaluation.
Defined.

Lemma metrics_invariant_witness :
  ∃ m, per (aggregate usd_sample ["0xabc"] [id1; id3] [id2; id3] [])
         !! "0xabc" = Some m
       ∧ (0 ≤ volume_execution_usd m)%Qc
       ∧ (volume_execution_usd m ≤ volume_involved_usd m)%Qc.
Proof.
  destruct (per (aggregate usd_sample ["0xabc"] [id1; id3] [id2; id3] [])
              !! "0xabc") as [m|] eqn:Hm; [|by vm_compute in Hm].
  exists m. split; [done|].
  apply (metrics_invariant usd_sample ["0xabc"] [id1; id3] [id2; id3] []
           "0xabc" m Hm).
  apply Forall_forall. by_evaluation.
Defined.

(** C7 fails as stated: amounts are summed with their sign.  One swap
    of [0xabc] with the amount -5 and one it receives with the amount -3
    leave an execution volume of -5 above an involved volume of -8. *)
Lemma metrics_invariant_negative_amounts :
  ∃ m, per (aggregate usd_sample ["0xabc"] [refund1] [] [refund1; refund2])
         !! "0xabc" = Some m
       ∧ volume_execution_usd m = Qc_of_Z (-5)
       ∧ volume_involved_usd m = Qc_of_Z (-8)
       ∧ ¬ (0 ≤ volume_execution_usd m)%Qc
       ∧ ¬ (volume_execution_usd m ≤ volume_involved_usd m)%Qc.
Proof.
  rewrite aggregate_lookup, decide_True by left.
  eexists. split; [done|].
  split_and!; by_evaluation.
Qed.

Lemma consistent_decide l :
  Forall (λ s, Forall (λ s', swap_id s = swap_id s' → s = s') l) l →
  consistent l.
Proof.
  intros H s s' Hs Hs'. rewrite Forall_forall in H.
  specialize (H s Hs). rewrite Forall_forall in H. by apply H.
Qed.

Lemma order_independence_witness :
  let r := aggregate usd_sample ["0xabc"] [id1; id3] [id2; id3] [] in
  let r' := aggregate usd_sample ["0xabc"] [id2; id3] [] [id1; id3] in
  allCount r = allCount r'
  ∧ dom (per r) = dom (per r')
  ∧ ∀ a m, per r !! a = Some m →
      ∃ m', per r' !! a = Some m'
        ∧ address m' = address m
        ∧ swaps_execution m' = swaps_execution m
        ∧ volume_execution_usd m' = volume_execution_usd m
        ∧ swaps_involved m' = swaps_involved m
        ∧ volume_involved_usd m' = volume_involved_usd m
        ∧ ∀ acc : Acc,
            accumulate ["0xabc"] (merged [id1; id3] [id2; id3] []) !! a
            = Some acc →
            NoDup (top_pairs acc).*2 →
            top_pairs m' = top_pairs m.
Proof.
  apply (order_independence usd_sample ["0xabc"]
           [id1; id3] [id2; id3] [] [id2; id3] [] [id1; id3]).
  - apply consistent_decide. by_evaluation.
  - intros s. rewrite !elem_of_app, !elem_of_cons, !elem_of_nil.
    naive_solver.
Defined.

(** C8 fails as stated: with the by-sender list handed over in the place
    of the by-origin list and the other way round, the same records come
    out with the two equally large pairs in the other order. *)
Lemma order_dependence_on_ties :
  consistent ([tie1; tie2] ++ [tie2] ++ [tie2])
  ∧ top_pairs <$> per (aggregate usd_sample ["0xabc"]
                         [tie1; tie2] [tie2] [tie2]) !! "0xabc"
    = Some ["WBNB/USDT ($10.00)"; "CAKE/USDT ($10.00)"]
  ∧ top_pairs <$> per (aggregate usd_sample ["0xabc"]
                         [tie2] [tie1; tie2] [tie2]) !! "0xabc"
    = Some ["CAKE/USDT ($10.00)"; "WBNB/USDT ($10.00)"]
  ∧ aggregate usd_sample ["0xabc"] [tie1; tie2] [tie2] [tie2]
    ≠ aggregate usd_sample ["0xabc"] [tie2] [tie1; tie2] [tie2].
Proof.
  assert (top_pairs <$> per (aggregate usd_sample ["0xabc"]
                               [tie1; tie2] [tie2] [tie2]) !! "0xabc"
          = Some ["WBNB/USDT ($10.00)"; "CAKE/USDT ($10.00)"]) as H1
    by reflexivity.
  assert (top_pairs <$> per (aggregate usd_sample ["0xabc"]
                               [tie2] [tie1; tie2] [tie2]) !! "0xabc"
          = Some ["CAKE/USDT ($10.00)"; "WBNB/USDT ($10.00)"]) as H2
    by reflexivity.
  split_and!; [|done|done|].
  - apply consistent_decide. by_evaluation.
  - intros Heq. rewrite Heq, H2 in H1. discriminate H1.
Qed.

Lemma result_keys_witness :
  dom (per (aggregate usd_sample ["0xabc"; "0xdef"; "0x123"]
              [id1; id3] [id2; id3] []))
  = list_to_set ["0xabc"; "0xdef"; "0x123"]
  ∧ per (aggregate usd_sample ["0xabc"; "0xdef"; "0x123"]
           [id1; id3] [id2; id3] []) !! "0x123"
    = Some (mkMetrics "0x123" 0 0%Qc 0 0%Qc []).
Proof.
  destruct (result_keys usd_sample ["0xabc"; "0xdef"; "0x123"]
              [id1; id3] [id2; id3] []) as (Hdom & _ & Hzero).
  split; [exact Hdom|]. apply Hzero.
  - by do 2 right; left.
  - apply Forall_forall. by_evaluation.
Defined.

Lemma uppercase_address_unmatched_witness :
  per (aggregate usd_sample ["0xABC"] [id1; id3] [id2; id3] []) !! "0xABC"
  = Some (mkMetrics "0xABC" 0 0%Qc 0 0%Qc []).
Proof.
  apply (uppercase_address_unmatched usd_sample ["0xABC"]
           [id1; id3] [id2; id3] [] "0xABC").
  - by left.
  - reflexivity.
Defined.

Lemma pagination_complete_witness :
  ∃ w',
    fetchAll (paged_source thousand) 2 (mkClient "https://e1.example" 30000)
      SWAPS_QUERY (mkVarsBase ["0xabc"] 0 86399) ()
    = (Returned thousand, w',
       [ mkEvent "https://e1.example" SWAPS_QUERY
           (mkVars (mkVarsBase ["0xabc"] 0 86399) 1000 0);
         mkEvent "https://e1.example" SWAPS_QUERY
           (mkVars (mkVarsBase ["0xabc"] 0 86399) 1000 1000) ]).
Proof.
  destruct (pagination_complete (paged_source thousand)
              (mkClient "https://e1.example" 30000) SWAPS_QUERY
              (mkVarsBase ["0xabc"] 0 86399) thousand 2 ())
    as [[w' Hrun] _].
  - intros skip w. reflexivity.
  - vm_compute. lia.
  - exists w'. rewrite Hrun. reflexivity.
Defined.

Lemma fallback_correctness_witness :
  (fetchWithFallbacks third_up (Some " https://e1.example ") 5
     ["0xabc"] 0 86399 ()).1.1
  = Returned (mkFetched [id1; id3] [id2; id3] [] url3)
  ∧ (fetchWithFallbacks all_down (Some " https://e1.example ") 5
       ["0xabc"] 0 86399 ()).1.1
    = Thrown (Error "All subgraph endpoints failed. Last error: The operation was aborted.").
Proof.
  split.
  - edestruct (proj1 (fallback_correctness third_up
                        (Some " https://e1.example ") 5 ["0xabc"] 0 86399 ())
                 ["https://e1.example"; url2] url3 []) as (Hrun & _ & _).
    + reflexivity.
    + eapply fail_cons.
      { apply origin_fails. reflexivity. }
      eapply fail_cons.
      { eapply sender_fails; reflexivity. }
      apply fail_nil.
    + eapply three_complete; reflexivity.
    + rewrite Hrun. reflexivity.
  - edestruct (proj2 (fallback_correctness all_down
                        (Some " https://e1.example ") 5 ["0xabc"] 0 86399 ()))
      as (Hrun & _).
    + eapply fail_cons.
      { apply origin_fails. reflexivity. }
      eapply fail_cons.
      { apply origin_fails. reflexivity. }
      eapply fail_cons.
      { apply origin_fails. reflexivity. }
      apply fail_nil.
    + rewrite Hrun. reflexivity.
Defined.

(** ** The further properties at concrete inputs *)

Lemma scripted_net_scripted script client query varsBase :
  scripted (scripted_net script) client query varsBase script.
Proof.
  intros j w. unfold scripted_net. cbn [fst v_skip].
  rewrite Nat.div_mul; [done|]. pose proof first_pos. lia.
Qed.

Lemma uniqLower_spec_witness :
  NoDup (uniqLower ["0xAB"; "0xab"; "0xCD"; "0xAb"])
  ∧ uniqLower ["0xAB"; "0xab"; "0xCD"; "0xAb"] = ["0xab"; "0xcd"].
Proof.
  split; [|reflexivity].
  apply (uniqLower_spec ["0xAB"; "0xab"; "0xCD"; "0xAb"]).
Defined.

Lemma uniqLower_fixed_witness :
  uniqLower ["0xab"; "0xcd"] = ["0xab"; "0xcd"].
Proof.
  apply (proj1 (uniqLower_fixed ["0xab"; "0xcd"])); by_evaluation.
Defined.

Lemma getArg_first_match_witness :
  getArg argv_sample "date" None = Some "2024-01-01"
  ∧ getArg argv_sample "addresses" None = Some " 0xABC ,0xdef,"
  ∧ getArg argv_sample "wallets" (Some "none") = Some "none".
Proof.
  split_and!.
  - apply (proj2 (getArg_first_match argv_sample "date" None)
             [ "node"; "node.js"; "--min=5000"; "--addresses= 0xABC ,0xdef,";
               "--addresses=0x999" ] "2024-01-01=utc" []);
      [by_evaluation|by_evaluation|reflexivity].
  - apply (proj2 (getArg_first_match argv_sample "addresses" None)
             [ "node"; "node.js"; "--min=5000" ] " 0xABC ,0xdef,"
             [ "--addresses=0x999"; "--date=2024-01-01=utc" ]);
      [by_evaluation|by_evaluation|reflexivity].
  - apply (proj1 (getArg_first_match argv_sample "wallets" (Some "none"))).
    by_evaluation.
Defined.

Lemma parseAddressList_clean_witness :
  parseAddressList None = []
  ∧ Forall (λ a, clean a ∧ ","%char ∉ chars a)
      (parseAddressList (Some " 0xABC ,0xdef,")).
Proof.
  split.
  - apply (proj2 (parseAddressList_clean None)). by left.
  - apply (proj1 (parseAddressList_clean (Some " 0xABC ,0xdef,"))).
Defined.

Lemma parseAddressList_concat_witness :
  parseAddressList (Some (String.concat "," ["0xABC"; "0xdef"]))
  = ["0xABC"; "0xdef"].
Proof.
  apply (parseAddressList_concat ["0xABC"; "0xdef"]).
  repeat constructor; try done; by_evaluation.
Defined.

Lemma loadWalletsFromFile_clean_witness :
  loadWalletsFromFile wallet_fs "account.txt" = ["0xabc"; "0x123"]
  ∧ NoDup (loadWalletsFromFile wallet_fs "account.txt")
  ∧ loadWalletsFromFile wallet_fs "wallets.txt" = [].
Proof.
  split_and!; [reflexivity| |].
  - apply (loadWalletsFromFile_clean wallet_fs "account.txt").
  - by apply (loadWalletsFromFile_clean wallet_fs "wallets.txt").
Defined.

Lemma fetchAll_request_pages_witness :
  let t :=
    (fetchAll (paged_source thousand) 5 (mkClient url2 30000) SWAPS_QUERY
       (mkVarsBase ["0xabc"] 0 86399) ()).2 in
  t = pages (mkClient url2 30000) SWAPS_QUERY (mkVarsBase ["0xabc"] 0 86399)
        0 (length t)
  ∧ (length t ≤ 5)%nat.
Proof.
  destruct (fetchAll (paged_source thousand) 5 (mkClient url2 30000)
              SWAPS_QUERY (mkVarsBase ["0xabc"] 0 86399) ())
    as [[r w'] t] eqn:Hrun.
  destruct (fetchAll_request_pages _ _ _ _ _ _ _ _ _ Hrun) as (Ht & Hlen & _).
  by split.
Defined.

Lemma fetchAll_returns_pages_witness :
  ∃ w',
    fetchAll (scripted_net then_nothing) 5 (mkClient url2 30000) SWAPS_QUERY
      (mkVarsBase ["0xabc"] 0 86399) ()
    = (Returned (rows_from then_nothing 0 2), w',
       pages (mkClient url2 30000) SWAPS_QUERY
         (mkVarsBase ["0xabc"] 0 86399) 0 2).
Proof.
  apply (fetchAll_returns_pages (scripted_net then_nothing)
           (mkClient url2 30000) SWAPS_QUERY (mkVarsBase ["0xabc"] 0 86399)
           then_nothing 1 5 ()).
  - apply scripted_net_scripted.
  - intros i Hi. replace i with 0 by lia. by_evaluation.
  - by_evaluation.
  - lia.
Defined.

Lemma fetchAll_rejection_witness :
  ∃ w',
    fetchAll (scripted_net then_timeout) 5 (mkClient url2 30000) SWAPS_QUERY
      (mkVarsBase ["0xabc"] 0 86399) ()
    = (Thrown timed_out, w',
       pages (mkClient url2 30000) SWAPS_QUERY
         (mkVarsBase ["0xabc"] 0 86399) 0 2).
Proof.
  apply (fetchAll_rejection (scripted_net then_timeout)
           (mkClient url2 30000) SWAPS_QUERY (mkVarsBase ["0xabc"] 0 86399)
           then_timeout 1 5 timed_out ()).
  - apply scripted_net_scripted.
  - intros i Hi. replace i with 0 by lia. by_evaluation.
  - reflexivity.
  - lia.
Defined.

Lemma fetchAll_endless_witness :
  ∃ w',
    fetchAll (scripted_net always_full) 7 (mkClient url2 30000) SWAPS_QUERY
      (mkVarsBase ["0xabc"] 0 86399) ()
    = (Pending, w',
       pages (mkClient url2 30000) SWAPS_QUERY
         (mkVarsBase ["0xabc"] 0 86399) 0 7).
Proof.
  apply (fetchAll_endless (scripted_net always_full)
           (mkClient url2 30000) SWAPS_QUERY (mkVarsBase ["0xabc"] 0 86399)
           always_full 7 ()).
  - apply scripted_net_scripted.
  - intros i. by_evaluation.
Defined.

Lemma DEFAULT_URLS_env_witness :
  DEFAULT_URLS (Some "   ") = [url2; url3]
  ∧ DEFAULT_URLS (Some " https://e1.example ")
    = ["https://e1.example"; url2; url3].
Proof.
  split.
  - rewrite (proj1 (DEFAULT_URLS_env "   ")); [reflexivity|by_evaluation].
  - rewrite (proj1 (proj2 (DEFAULT_URLS_env " https://e1.example ")));
      [reflexivity|by_evaluation].
Defined.

Lemma fetchWithFallbacks_outcome_witness :
  Forall (λ ev, ev_url ev ∈ DEFAULT_URLS (Some " https://e1.example "))
    (fetchWithFallbacks third_up (Some " https://e1.example ") 5
       ["0xabc"] 0 86399 ()).2.
Proof.
  destruct (fetchWithFallbacks third_up (Some " https://e1.example ") 5
              ["0xabc"] 0 86399 ()) as [[out w'] t] eqn:Hrun.
  apply (fetchWithFallbacks_outcome _ _ _ _ _ _ _ _ _ _ Hrun).
Defined.

Lemma merged_first_seen_witness :
  merged [id1; id3] [id2; id3] [] = [id1; id3; id2]
  ∧ merged [id1; id3] [id2; id3] [] `sublist_of` [id1; id3] ++ [id2; id3] ++ [].
Proof.
  split; [reflexivity|].
  apply (merged_first_seen [id1; id3] [id2; id3] []).
Defined.


Lemma count_bounds_witness :
  allCount (aggregate usd_sample ["0xabc"] [id1; id3] [id2; id3] []) = 3
  ∧ (allCount (aggregate usd_sample ["0xabc"] [id1; id3] [id2; id3] [])
     ≤ 2 + 2 + 0)%nat.
Proof.
  split; [reflexivity|].
  apply (count_bounds usd_sample ["0xabc"] [id1; id3] [id2; id3] []).
Defined.


Lemma table_rows_witness :
  ∃ rows,
    table (Some (Qc_of_Z 10000)) ["0xabc"]
      (per (aggregate usd_sample ["0xabc"] [id1; id3] [id2; id3] []))
    = Some rows
    ∧ map wallet rows = ["0xabc"]
    ∧ map pass rows = ["❌"].
Proof.
  destruct (table_rows usd_sample (Some (Qc_of_Z 10000)) ["0xabc"]
              [id1; id3] [id2; id3] []) as (rows & Hrows & Hw & _).
  exists rows. split_and!; [done|done|].
  vm_compute in Hrows. by injection Hrows as <-.
Defined.

Lemma main_addresses_matching_witness :
  main_addresses argv_sample wallet_fs None = ["0xabc"; "0xdef"; "0x123"]
  ∧ NoDup (main_addresses argv_sample wallet_fs None).
Proof.
  split; [reflexivity|].
  apply (main_addresses_matching argv_sample wallet_fs None).
Defined.
